(** * Keller-Segel-chemotaxis: case files and run scripts

    A shallow embedding of

    - [simulationCases/keller-segel.c] and [simulationCases/brusselator.c],
      two case files written against the Basilisk solver framework
      ([grid/multigrid.h], [run.h], [diffusion.h]);
    - [simulationCases/runCases.sh] and [simulationCases/cleanup.sh], the
      build-and-run and cleanup wrappers.

    Numbers.  The C code computes in [double].  The embedding computes in
    exact rational arithmetic ([Qc], canonical rationals): the statements
    over it are about the real-number semantics of the formulas of the
    case files.  No event of the case files branches on the value of a
    field, so rounding changes the values the fields hold, but not which
    events run, which cells are assigned or what is written.  Where a
    statement gives the value of a field, it is the value of the formula
    in exact arithmetic.  The one statement that rests on an exact
    cancellation, that of the source terms at the stationary solution,
    is also evaluated in binary64 ([Binary64]).

    The framework.  Basilisk is not part of the repository.  What the case
    files call ([sqrt], [noise], [dtnext], [diffusion], the [%g] format of
    [sprintf]) is an interface, [Basilisk], over which all definitions
    are parametric; the generic time loop of [run.h] is written out as
    [loop] following the meaning of the event declarations of the case
    files.

    The tools.  What [qcc] makes of a source and what the compiled
    program does are parameters of the scripts ([Host]), and so is the
    [dirname] of the system: [runCases_sh] and [cleanup_sh] are the
    scripts for any [dirname], [runCases] and [cleanup] the scripts
    where [dirname] works. *)

From Stdlib Require Import QArith Qcanon Field Lia Floats.
From stdpp Require Import gmap strings list.

Local Open Scope Qc_scope.

(** ** Numbers *)

(** Decimal literals of the C sources, as exact fractions. *)
Definition frac (n : Z) (d : positive) : Qc := Q2Qc (n # d).

(** [sq] of Basilisk's [common.h]. *)
Definition sq (x : Qc) : Qc := x * x.

(** ** Solver state *)

(** [mgstats]: the case files read only the iteration count [.i]. *)
Record mgstats := Mgstats { mg_i : nat }.

(** What a run writes: raster frames ([output_ppm]) and the lines
    printed by [fprintf (stderr, "%d %g %g %d %d\n", ...)]. *)
Inductive output :=
| Ppm (file : string) (n : nat) (linear : bool) (spread : Qc)
      (field : list Qc)
| Progress (i : nat) (t dt : Qc) (i1 i2 : nat).

(** A scalar field is the list of its values on the cells of the grid,
    in the order [foreach()] visits them. *)
Abbreviation scalar := (list Qc).

(** The global variables of a case file, together with the loop
    variables of [run.h] ([iter], [t]), the grid parameters ([N], [L0],
    [TOLERANCE]), the number of values [noise()] has returned so far
    ([drawn]) and everything written so far ([out], oldest first). *)
Record sim := Sim {
  N : nat;
  L0 : Qc;
  TOLERANCE : Qc;
  iter : nat;
  t : Qc;
  mu : Qc;
  kb : Qc;
  dt : Qc;
  mgd1 : mgstats;
  mgd2 : mgstats;
  C1 : scalar;
  C2 : scalar;
  drawn : nat;
  out : list output
}.

Definition set_N (v : nat) (s : sim) : sim :=
  Sim v (L0 s) (TOLERANCE s) (iter s) (t s) (mu s) (kb s) (dt s)
      (mgd1 s) (mgd2 s) (C1 s) (C2 s) (drawn s) (out s).
Definition set_L0 (v : Qc) (s : sim) : sim :=
  Sim (N s) v (TOLERANCE s) (iter s) (t s) (mu s) (kb s) (dt s)
      (mgd1 s) (mgd2 s) (C1 s) (C2 s) (drawn s) (out s).
Definition set_TOLERANCE (v : Qc) (s : sim) : sim :=
  Sim (N s) (L0 s) v (iter s) (t s) (mu s) (kb s) (dt s)
      (mgd1 s) (mgd2 s) (C1 s) (C2 s) (drawn s) (out s).
Definition set_clock (i : nat) (v : Qc) (s : sim) : sim :=
  Sim (N s) (L0 s) (TOLERANCE s) i v (mu s) (kb s) (dt s)
      (mgd1 s) (mgd2 s) (C1 s) (C2 s) (drawn s) (out s).
Definition set_mu (v : Qc) (s : sim) : sim :=
  Sim (N s) (L0 s) (TOLERANCE s) (iter s) (t s) v (kb s) (dt s)
      (mgd1 s) (mgd2 s) (C1 s) (C2 s) (drawn s) (out s).
Definition set_kb (v : Qc) (s : sim) : sim :=
  Sim (N s) (L0 s) (TOLERANCE s) (iter s) (t s) (mu s) v (dt s)
      (mgd1 s) (mgd2 s) (C1 s) (C2 s) (drawn s) (out s).
Definition set_dt (v : Qc) (s : sim) : sim :=
  Sim (N s) (L0 s) (TOLERANCE s) (iter s) (t s) (mu s) (kb s) v
      (mgd1 s) (mgd2 s) (C1 s) (C2 s) (drawn s) (out s).
Definition set_mgd1 (v : mgstats) (s : sim) : sim :=
  Sim (N s) (L0 s) (TOLERANCE s) (iter s) (t s) (mu s) (kb s) (dt s)
      v (mgd2 s) (C1 s) (C2 s) (drawn s) (out s).
Definition set_mgd2 (v : mgstats) (s : sim) : sim :=
  Sim (N s) (L0 s) (TOLERANCE s) (iter s) (t s) (mu s) (kb s) (dt s)
      (mgd1 s) v (C1 s) (C2 s) (drawn s) (out s).
Definition set_C1 (v : scalar) (s : sim) : sim :=
  Sim (N s) (L0 s) (TOLERANCE s) (iter s) (t s) (mu s) (kb s) (dt s)
      (mgd1 s) (mgd2 s) v (C2 s) (drawn s) (out s).
Definition set_C2 (v : scalar) (s : sim) : sim :=
  Sim (N s) (L0 s) (TOLERANCE s) (iter s) (t s) (mu s) (kb s) (dt s)
      (mgd1 s) (mgd2 s) (C1 s) v (drawn s) (out s).
Definition set_drawn (v : nat) (s : sim) : sim :=
  Sim (N s) (L0 s) (TOLERANCE s) (iter s) (t s) (mu s) (kb s) (dt s)
      (mgd1 s) (mgd2 s) (C1 s) (C2 s) v (out s).
Definition write (o : output) (s : sim) : sim :=
  Sim (N s) (L0 s) (TOLERANCE s) (iter s) (t s) (mu s) (kb s) (dt s)
      (mgd1 s) (mgd2 s) (C1 s) (C2 s) (drawn s) (out s ++ [o]).

(** The state of the process when [main] is entered: C zero-initialises
    the globals ([double mu, kb; double dt; mgstats mgd1, mgd2;]), no
    grid exists and nothing has been written. *)
Definition boot : sim :=
  Sim 0 0 0 0 0 0 0 0 (Mgstats 0) (Mgstats 0) [] [] 0 [].

(** ** The framework *)

(** The functions of Basilisk and of the C library the case files call.

    - [sqrt x]: [sqrt] of [math.h];
    - [noise j]: the value of the [j]-th call of [noise()] in the
      process (a pseudo-random number of [[-1, 1]]);
    - [dtnext t dtmax]: the timestep [dtnext (dtmax)] chooses at time [t];
    - [diffusion f dt c r beta]: the time-implicit solve of
      [diffusion.h], returning the new value of [f] and the multigrid
      statistics; [c] is the face diffusion coefficient, [None] where
      the call leaves it out;
    - [fmt_g x]: the text [sprintf] writes for [%g]. *)
Class Basilisk := {
  sqrt : Qc -> Qc;
  noise : nat -> Qc;
  dtnext : Qc -> Qc -> Qc;
  diffusion : scalar -> Qc -> option (Qc * Qc) -> scalar -> scalar ->
              scalar * mgstats;
  fmt_g : Qc -> string
}.

(** [init_grid (n)] and [size (l)]. *)
Definition init_grid (n : nat) (s : sim) : sim := set_N n s.
Definition size (l : Qc) (s : sim) : sim := set_L0 l s.

(** [f[]] in the cell number [j]. *)
Definition val (f : scalar) (j : nat) : Qc := nth j f 0.

(** [foreach() { f[] = body; }] on the [N x N] cells of the grid. *)
Definition foreach (s : sim) (body : nat -> Qc) : scalar :=
  map body (seq 0 (N s * N s)).

(** Modelled from the spec: when the framework calls an event back
    ([run.h] is not part of the repository).  The conditions the case
    files declare are [(i = i0)], at the iteration [i0];
    [(i = i0; i += step)], at [i0] and every [step] iterations after
    it; [(t = t0)], at the time [t0]; and [(i++)], at every
    iteration. *)
Definition at_i (i0 : nat) (s : sim) : bool := Nat.eqb (iter s) i0.
Definition from_i_every (i0 step : nat) (s : sim) : bool :=
  Nat.leb i0 (iter s) && Nat.eqb ((iter s - i0) mod step) 0.
Definition at_t (t0 : Qc) (s : sim) : bool := bool_decide (t s = t0).

Definition when (c : sim -> bool) (ev : sim -> sim) (s : sim) : sim :=
  if c s then ev s else s.

(** Modelled from the spec: the generic time loop of [run()], which
    executes the time loop and calls back into the events of the case
    file.  [events] runs the events that are due at the current
    [(iter, t)], in the order of the file; the loop then moves to the
    next iteration, at the time the timestep chosen by [dtnext] leads
    to, and ends with the iteration in which the last event with a
    finite time, at [t_end], was run.  A run starts at iteration 0 and
    time 0.  The fuel bounds the number of iterations. *)
Definition advance (s : sim) : sim := set_clock (S (iter s)) (t s + dt s) s.

Definition step (events : sim -> sim) (s : sim) : sim := advance (events s).

Fixpoint steps (events : sim -> sim) (n : nat) (s : sim) : sim :=
  match n with
  | O => s
  | S n' => step events (steps events n' s)
  end.

Fixpoint loop (events : sim -> sim) (t_end : Qc) (fuel : nat) (s : sim)
  : option sim :=
  match fuel with
  | O => None
  | S fuel' =>
      let s' := events s in
      if at_t t_end s then Some s' else loop events t_end fuel' (advance s')
  end.

Definition start (s : sim) : sim := set_clock 0 0 s.

Definition time_loop (events : sim -> sim) (t_end : Qc) (fuel : nat)
    (s : sim) : option sim :=
  loop events t_end fuel (start s).

(** ** simulationCases/keller-segel.c *)

Module KellerSegel.

(** [double k = 1., ka = 4.5, D = 8.;] *)
Definition k : Qc := 1.
Definition ka : Qc := frac 9 2.
Definition D : Qc := frac 8 1.

Section Case.
Context `{Basilisk}.

(** [event init (i = 0)] *)
Definition init (s : sim) : sim :=
  let nu := sqrt (1 / D) in
  let kbcrit := sq (1 + ka * nu) in
  let s := set_kb (kbcrit * (1 + mu s)) s in
  let s' := set_C1 (foreach s (fun _ => ka)) s in
  let s' :=
    set_C2 (foreach s (fun j =>
              kb s / ka + frac 1 100 * noise (drawn s + j))) s' in
  set_drawn (drawn s + N s * N s) s'.

(** [event movie (i = 1; i += 10)] *)
Definition movie (s : sim) : sim :=
  let s := write (Ppm "f.mp4" 200 true (frac 2 1) (C1 s)) s in
  write (Progress (iter s) (t s) (dt s) (mg_i (mgd1 s)) (mg_i (mgd2 s))) s.

(** [event final (t = 3000)] *)
Definition final (s : sim) : sim :=
  let name := ("mu-" ++ fmt_g (mu s) ++ ".png")%string in
  write (Ppm name 200 true (frac 2 1) (C1 s)) s.

(** [event integration (i++)] *)
Definition integration (s : sim) : sim :=
  let s := set_dt (dtnext (t s) 1) s in
  let r := foreach s (fun _ => k * ka) in
  let beta :=
    foreach s (fun j => k * (val (C1 s) j * val (C2 s) j - kb s - 1)) in
  let '(f, st) := diffusion (C1 s) (dt s) None r beta in
  let s := set_mgd1 st (set_C1 f s) in
  let r := foreach s (fun j => k * kb s * val (C1 s) j) in
  let beta := foreach s (fun j => - k * sq (val (C1 s) j)) in
  let c := (D, D) in
  let '(f, st) := diffusion (C2 s) (dt s) (Some c) r beta in
  set_mgd2 st (set_C2 f s).

(** The events due at the current iteration, in the order of the
    file: [init], [movie], [final], [integration]. *)
Definition events (s : sim) : sim :=
  let s := when (at_i 0) init s in
  let s := when (from_i_every 1 10) movie s in
  let s := when (at_t (frac 3000 1)) final s in
  integration s.

(** [run()] over the events of this file; the last event with a
    finite time is [final], at [t = 3000]. *)
Definition run (fuel : nat) (s : sim) : option sim :=
  time_loop events (frac 3000 1) fuel s.

(** [int main()] *)
Definition main (fuel : nat) : option sim :=
  let s := init_grid 128 boot in
  let s := size (frac 64 1) s in
  let s := set_TOLERANCE (frac 1 10000) s in
  s ← run fuel (set_mu (frac 4 100) s);
  s ← run fuel (set_mu (frac 1 10) s);
  run fuel (set_mu (frac 98 100) s).

End Case.

End KellerSegel.

(** ** simulationCases/brusselator.c *)

Module Brusselator.

(** [double k = 1., ka = 4.5, D = 8.;] *)
Definition k : Qc := 1.
Definition ka : Qc := frac 9 2.
Definition D : Qc := frac 8 1.

Section Case.
Context `{Basilisk}.

(** [event init (i = 0)]: the marginal stability is at [kb = kbcrit];
    the stationary solution [C1 = ka], [C2 = kb/ka] is perturbed by
    noise. *)
Definition init (s : sim) : sim :=
  let nu := sqrt (1 / D) in
  let kbcrit := sq (1 + ka * nu) in
  let s := set_kb (kbcrit * (1 + mu s)) s in
  let s' := set_C1 (foreach s (fun _ => ka)) s in
  let s' :=
    set_C2 (foreach s (fun j =>
              kb s / ka + frac 1 100 * noise (drawn s + j))) s' in
  set_drawn (drawn s + N s * N s) s'.

(** [event movie (i = 1; i += 10)] *)
Definition movie (s : sim) : sim :=
  let s := write (Ppm "f.mp4" 200 true (frac 2 1) (C1 s)) s in
  write (Progress (iter s) (t s) (dt s) (mg_i (mgd1 s)) (mg_i (mgd2 s))) s.

(** [event final (t = 3000)] *)
Definition final (s : sim) : sim :=
  let name := ("mu-" ++ fmt_g (mu s) ++ ".png")%string in
  write (Ppm name 200 true (frac 2 1) (C1 s)) s.

(** [event integration (i++)]: each equation is split as
    [dC/dt = D lap C + r + beta C]. *)
Definition integration (s : sim) : sim :=
  let s := set_dt (dtnext (t s) 1) s in
  let r := foreach s (fun _ => k * ka) in
  let beta :=
    foreach s (fun j => k * (val (C1 s) j * val (C2 s) j - kb s - 1)) in
  let '(f, st) := diffusion (C1 s) (dt s) None r beta in
  let s := set_mgd1 st (set_C1 f s) in
  let r := foreach s (fun j => k * kb s * val (C1 s) j) in
  let beta := foreach s (fun j => - k * sq (val (C1 s) j)) in
  let c := (D, D) in
  let '(f, st) := diffusion (C2 s) (dt s) (Some c) r beta in
  set_mgd2 st (set_C2 f s).

Definition events (s : sim) : sim :=
  let s := when (at_i 0) init s in
  let s := when (from_i_every 1 10) movie s in
  let s := when (at_t (frac 3000 1)) final s in
  integration s.

(** [run()] over the events of this file; the last event with a
    finite time is [final], at [t = 3000]. *)
Definition run (fuel : nat) (s : sim) : option sim :=
  time_loop events (frac 3000 1) fuel s.

(** [int main()] *)
Definition main (fuel : nat) : option sim :=
  let s := init_grid 128 boot in
  let s := size (frac 64 1) s in
  let s := set_TOLERANCE (frac 1 10000) s in
  s ← run fuel (set_mu (frac 4 100) s);
  s ← run fuel (set_mu (frac 1 10) s);
  run fuel (set_mu (frac 98 100) s).

End Case.

End Brusselator.

(** ** The formulas of the case files in binary64 *)

(** The same expressions with the [double] operations of the C code
    (IEEE binary64, round to nearest), cell by cell.  The literals are
    the doubles nearest to the decimal ones. *)
Module Binary64.

Definition k : float := 1%float.
Definition ka : float := 4.5%float.
Definition D : float := 8%float.

Definition centi : float := 0x1.47ae147ae147bp-7%float.

Definition sq (x : float) : float := (x * x)%float.

(** [event init] in one cell: [kb], [C1[]] and [C2[]], for the value
    [noise()] returns there. *)
Definition init_cell (mu noise : float) : float * float * float :=
  let nu := PrimFloat.sqrt (1 / D)%float in
  let kbcrit := sq (1 + ka * nu)%float in
  let kb := (kbcrit * (1 + mu))%float in
  (kb, ka, (kb / ka + centi * noise)%float).

(** The two [foreach] of [event integration] in one cell: [r[]] and
    [beta[]] of the first and of the second solve. *)
Definition sources1 (kb c1 c2 : float) : float * float :=
  ((k * ka)%float, (k * (c1 * c2 - kb - 1))%float).

Definition sources2 (kb c1 : float) : float * float :=
  ((k * kb * c1)%float, (- k * sq c1)%float).

End Binary64.

(** ** Notions of the statements *)

(** The progress lines among what was written. *)
Definition is_progress (o : output) : bool :=
  match o with Progress _ _ _ _ _ => true | Ppm _ _ _ _ _ => false end.

Definition progress_lines (l : list output) : list output :=
  List.filter is_progress l.

(** The names of the raster files written, in order. *)
Definition ppm_file (o : output) : option string :=
  match o with Ppm f _ _ _ _ => Some f | Progress _ _ _ _ _ => None end.

Definition files_written (l : list output) : list string :=
  omap ppm_file l.

(** The grid a state runs on: resolution and physical size. *)
Definition grid (s : sim) : nat * Qc := (N s, L0 s).

(** A state at the stationary solution: [C1 = ka] and [C2 = kb/ka] in
    every cell. *)
Definition stationary (s : sim) : Prop :=
  C1 s = replicate (N s * N s) KellerSegel.ka /\
  C2 s = replicate (N s * N s) (kb s / KellerSegel.ka).

(** The splitting of the integration step, written after the words of
    the specification.  [integration_sequential] computes the sources of
    the [C2] solve from the [C1] the first solve returned;
    [integration_simultaneous] is the other reading, with both solves
    fed from the values before the step. *)
Definition integration_sequential `{Basilisk} (s : sim) : sim :=
  let h := dtnext (t s) 1 in
  let k := KellerSegel.k in
  let ka := KellerSegel.ka in
  let D := KellerSegel.D in
  let new1 :=
    diffusion (C1 s) h None
      (foreach s (fun _ => k * ka))
      (foreach s (fun j => k * (val (C1 s) j * val (C2 s) j - kb s - 1))) in
  let new2 :=
    diffusion (C2 s) h (Some (D, D))
      (foreach s (fun j => k * kb s * val new1.1 j))
      (foreach s (fun j => - k * sq (val new1.1 j))) in
  set_mgd2 new2.2 (set_C2 new2.1 (set_mgd1 new1.2 (set_C1 new1.1 (set_dt h s)))).

Definition integration_simultaneous `{Basilisk} (s : sim) : sim :=
  let h := dtnext (t s) 1 in
  let k := KellerSegel.k in
  let ka := KellerSegel.ka in
  let D := KellerSegel.D in
  let new1 :=
    diffusion (C1 s) h None
      (foreach s (fun _ => k * ka))
      (foreach s (fun j => k * (val (C1 s) j * val (C2 s) j - kb s - 1))) in
  let new2 :=
    diffusion (C2 s) h (Some (D, D))
      (foreach s (fun j => k * kb s * val (C1 s) j))
      (foreach s (fun j => - k * sq (val (C1 s) j))) in
  set_mgd2 new2.2 (set_C2 new2.1 (set_mgd1 new1.2 (set_C1 new1.1 (set_dt h s)))).

(** A concrete framework, used to run the definitions: no noise, unit
    timesteps, and a solver that treats every cell on its own with one
    backward-Euler step of [df/dt = r + beta f] (what the implicit
    scheme gives on a field without gradients), reporting one
    iteration.  [sqrt] is the integer square root of the numerator over
    that of the denominator. *)
Definition euler_cell (h : Qc) (fj rj bj : Qc) : Qc :=
  if bool_decide (1 - h * bj = 0) then fj else (fj + h * rj) / (1 - h * bj).

Definition pointwise_solve (f : scalar) (h : Qc) (c : option (Qc * Qc))
    (r beta : scalar) : scalar * mgstats :=
  (map (fun j => euler_cell h (val f j) (val r j) (val beta j))
       (seq 0 (length f)), Mgstats 1).

Definition isqrt (x : Qc) : Qc :=
  Q2Qc (Z.sqrt (Qnum x) # Pos.sqrt (Qden x)).

Definition quiet : Basilisk :=
  {| sqrt := isqrt;
     noise := fun _ => 0;
     dtnext := fun _ dtmax => dtmax;
     diffusion := pointwise_solve;
     fmt_g := fun x => if bool_decide (x = frac 4 100) then "0.04"
                       else if bool_decide (x = frac 1 10) then "0.1"
                       else if bool_decide (x = frac 98 100) then "0.98"
                       else "?" |}.

(** The same with a perturbation: [noise()] returns 1 at every call. *)
Definition noisy : Basilisk :=
  {| sqrt := isqrt;
     noise := fun _ => 1;
     dtnext := fun _ dtmax => dtmax;
     diffusion := pointwise_solve;
     fmt_g := fun _ => "?" |}.

(** The two assumptions of the fixed-point statement.  [no_noise]: the
    perturbation is zero.  [keeps_equilibria]: where the field is
    uniform and its source [r + beta f] vanishes in every cell, the
    implicit solve returns the field it was given (the field solves
    [(f' - f)/dt = div (c grad f') + beta f' + r] with [f' = f]). *)
Definition no_noise `{Basilisk} : Prop := forall j, noise j = 0.

Definition keeps_equilibria `{Basilisk} : Prop :=
  forall (n : nat) (v h : Qc) (c : option (Qc * Qc)) (r beta : scalar),
    (forall j, (j < n)%nat -> val r j + val beta j * v = 0) ->
    (diffusion (replicate n v) h c r beta).1 = replicate n v.

(** What was written between two states of one process. *)
Definition written (s s' : sim) : list output :=
  drop (length (out s)) (out s').

(** The final images among what was written: the raster files other
    than the movie. *)
Definition final_image (o : output) : option string :=
  match o with
  | Ppm f _ _ _ _ => if String.eqb f "f.mp4" then None else Some f
  | Progress _ _ _ _ _ => None
  end.

Definition final_images (l : list output) : list string :=
  omap final_image l.

(** The state [main] has set up before the first run. *)
Definition configured : sim :=
  set_TOLERANCE (frac 1 10000) (size (frac 64 1) (init_grid 128 boot)).

(** The states at the start of an iteration in the course of [main]:
    the first run starts from [configured] with [mu] set; within a run
    the loop steps; after the last iteration of a run, [main] sets [mu]
    and the next run starts. *)
Inductive during_main `{Basilisk} : sim -> Prop :=
| dm_first :
    during_main (start (set_mu (frac 4 100) configured))
| dm_step (s : sim) :
    during_main s -> during_main (step KellerSegel.events s)
| dm_next (s : sim) (m : Qc) :
    during_main s ->
    during_main (start (set_mu m (KellerSegel.events s))).

(** The fields as [init] makes them on the grid of [main], for the
    value [m] of [mu] and the noise from its call number [first] on:
    [kb = kbcrit (1 + m)], [C1 = ka] in each of the 128 x 128 cells, and
    [C2 = kb/ka + 0.01 noise()] there. *)
Definition freshly_initialised `{Basilisk} (m : Qc) (first : nat) (s : sim)
  : Prop :=
  kb s = sq (1 + KellerSegel.ka * sqrt (1 / KellerSegel.D)) * (1 + m) /\
  C1 s = replicate (128 * 128) KellerSegel.ka /\
  length (C2 s) = (128 * 128)%nat /\
  forall j : nat,
    (j < 128 * 128)%nat ->
    val (C2 s) j = kb s / KellerSegel.ka + frac 1 100 * noise (first + j).

(** Unit timesteps: [dtnext (1.)] returns 1 (the times of the events of
    the case files are whole numbers, so the steps need no adjustment to
    meet them). *)
Definition unit_steps `{Basilisk} : Prop := forall t, dtnext t 1 = 1.


(** The part of the state the events of a case file never assign. *)
Definition frame (s : sim) : nat * Qc * Qc * nat * Qc * Qc :=
  (N s, L0 s, TOLERANCE s, iter s, t s, mu s).

(** What the events of one iteration write: the movie frame and the
    progress line when [movie] is due, the final image when [final]
    is. *)
Definition movie_output `{Basilisk} (s : sim) : list output :=
  if from_i_every 1 10 s
  then [Ppm "f.mp4" 200 true (frac 2 1)
            (C1 (when (at_i 0) KellerSegel.init s));
        Progress (iter s) (t s) (dt s) (mg_i (mgd1 s)) (mg_i (mgd2 s))]
  else [].

Definition final_output `{Basilisk} (s : sim) : list output :=
  if at_t (frac 3000 1) s
  then [Ppm ("mu-" ++ fmt_g (mu s) ++ ".png") 200 true (frac 2 1)
            (C1 (when (at_i 0) KellerSegel.init s))]
  else [].

(** The whole number [n] as a time. *)
Definition whole (n : nat) : Qc := Q2Qc (inject_Z (Z.of_nat n)).

(** ** The run scripts *)

(** *** Files and commands *)

(** A path is the list of its components below the root; the file
    system maps the paths that exist to what is there.  Access rights
    and links are not modelled. *)
Abbreviation path := (list string).

Inductive node :=
| File (content : string)
| Dir.

(** The external commands the two scripts run. *)
Inductive command :=
| Cd (dir : path)
| Mkdir_p (dir : path)
| Cp (src dir : path)
| Qcc (incl src out : path)
| Exec (prog : string)
| Rm_rf (dir : path).

(** What [qcc] makes of its arguments: an executable, with the warnings
    it has printed on the way (the scripts pass [-Wall]); or none, and
    then an exit status that is not 0, written [S st], its messages, and
    whether it has removed what was at the output path. *)
Inductive compilation :=
| Compiled (bin : string) (warnings : list string)
| Rejected (st : nat) (msgs : list string) (unlinks : bool).

(** What the scripts cannot decide themselves: what [qcc] makes of a
    source (given the files, the working directory, the include path,
    the source and the output path), and what the compiled program does
    when it is run in a directory: its exit status, the files it leaves
    and what it prints to the standard error stream. *)
Class Host := {
  qcc_compile : gmap path node -> path -> path -> path -> path -> compilation;
  execute : string -> path -> gmap path node ->
            nat * gmap path node * list string
}.

(** The state the scripts act on: the files, the working directory of
    the shell, the lines on the standard error stream, and the log of
    the external commands run so far, each with its exit status and the
    messages it printed. *)
Record world := World {
  fs : gmap path node;
  cwd : path;
  stderr : list string;
  ran : list (command * nat * list string)
}.

Definition is_dir (f : gmap path node) (p : path) : bool :=
  match p with
  | [] => true
  | _ => match f !! p with Some Dir => true | _ => false end
  end.

Definition is_file (f : gmap path node) (p : path) : bool :=
  match f !! p with Some (File _) => true | _ => false end.

(** [cd] reads [.] and [..] as the shell does. *)
Definition enter (p : path) (c : string) : path :=
  if String.eqb c ".." then removelast p
  else if String.eqb c "." then p
  else p ++ [c].

Definition resolve (p : path) : path := foldl enter [] p.

(** [dirname] and [basename], on components. *)
Definition dirname (p : path) : path := removelast p.
Definition basename (p : path) : string := List.last p "".

(** [dirname] is a command of its own, which the scripts run on
    [BASH_SOURCE[0]]: it ends with an exit status, has printed a path or
    nothing ([None]), and has written messages to the standard error
    stream.  [gnu_dirname] is the command of coreutils where it is found
    and the path does not read as an option: status 0, the path without
    its last component, no message. *)
Definition dirname_command : Type := path -> nat * option path * list string.

Definition gnu_dirname : dirname_command :=
  fun p => (O, Some (dirname p), []).

(** [mkdir -p dir]: the directory and the missing ones above it are
    created; a file in the way makes it fail. *)
Definition ancestors (p : path) : list path :=
  map (fun n => take n p) (seq 1 (length p)).

Definition blocked (f : gmap path node) (p : path) : bool :=
  existsb (is_file f) (ancestors p).

Definition mkdir_p (f : gmap path node) (p : path) : gmap path node :=
  f ∪ gset_to_gmap Dir (list_to_set (ancestors p)).

(** [cp src dir/]: [src] must be a file, [dir] a directory, and the
    target must not be a directory. *)
Definition cp (f : gmap path node) (src dir : path)
  : option (gmap path node) :=
  match f !! src with
  | Some (File c) =>
      if is_dir f dir && negb (is_dir f (dir ++ [basename src]))
      then Some (<[dir ++ [basename src] := File c]> f)
      else None
  | _ => None
  end.

(** [qcc -I<incl> -O2 -Wall -disable-dimensions <src> -o <out> -lm], run
    in [d]: the exit status, the files and the messages.  An executable
    is written to [out]; without one, [out] is left or removed, as the
    compiler does. *)
Definition qcc `{Host} (f : gmap path node) (d incl src out : path)
  : nat * gmap path node * list string :=
  match qcc_compile f d incl src out with
  | Compiled bin warnings => (O, <[out := File bin]> f, warnings)
  | Rejected st msgs unlinks =>
      (S st, if unlinks then delete out f else f, msgs)
  end.

(** [rm -rf dir]: [dir] and all below it go; nothing to remove is no
    error. *)
Definition rm_rf (f : gmap path node) (p : path) : gmap path node :=
  filter (fun e => ~ p `prefix_of` e.1) f.

(** What a command gives: an exit status, the files and the working
    directory after it, and the messages it printed. *)
Record outcome := Outcome {
  status : nat;
  files : gmap path node;
  dir_after : path;
  messages : list string
}.

(** Modelled from the spec: what the external commands do to the files
    (the tools are not part of the repository): [cd] needs a directory,
    [mkdir -p] creates the output directory, [cp] copies the source into
    it, [qcc] writes the executable or fails as the host says, the
    executable does what the host says, [rm -rf] removes recursively and
    does not fail on a missing directory (with no access rights in the
    model there is nothing else it could fail on).  The statuses of the
    failures of [cd], [mkdir] and [cp] are those of bash and of
    coreutils, 1; 127 is the status bash gives for a command it does not
    find. *)
Definition perform `{Host} (c : command) (f : gmap path node) (d : path)
  : outcome :=
  match c with
  | Cd dir =>
      if is_dir f (resolve dir) then Outcome 0 f (resolve dir) []
      else Outcome 1 f d ["cd: No such file or directory"%string]
  | Mkdir_p dir =>
      if blocked f dir
      then Outcome 1 f d ["mkdir: cannot create directory"%string]
      else Outcome 0 (mkdir_p f dir) d []
  | Cp src dir =>
      match cp f src dir with
      | Some f' => Outcome 0 f' d []
      | None => Outcome 1 f d ["cp: cannot copy"%string]
      end
  | Qcc incl src out =>
      let '(st, f', msgs) := qcc f d incl src out in Outcome st f' d msgs
  | Exec prog =>
      match f !! (d ++ [prog]) with
      | Some (File bin) =>
          let '(st, f', msgs) := execute bin d f in Outcome st f' d msgs
      | _ => Outcome 127 f d ["bash: No such file or directory"%string]
      end
  | Rm_rf dir => Outcome 0 (rm_rf f dir) d []
  end.

(** *** The shell under [set -e] *)

(** A piece of script maps the world to a new one, and either goes on
    with a value ([inl]) or has ended the shell with an exit status
    ([inr]). *)
Definition sh (A : Type) : Type := world -> (A + nat) * world.

Definition sh_ret {A : Type} (a : A) : sh A := fun w => (inl a, w).

Definition sh_bind {A B : Type} (m : sh A) (k : A -> sh B) : sh B :=
  fun w =>
    match m w with
    | (inl a, w') => k a w'
    | (inr st, w') => (inr st, w')
    end.

#[global] Instance sh_mret : MRet sh := @sh_ret.
#[global] Instance sh_mbind : MBind sh := fun A B k m => sh_bind m k.

(** Modelled from the spec: strict failure propagation ([set -euo
    pipefail]).  A simple command is run and logged, and a status other
    than 0 ends the shell with that status. *)
Definition simple `{Host} (c : command) : sh unit :=
  fun w =>
    let o := perform c (fs w) (cwd w) in
    let w' := World (files o) (dir_after o) (stderr w ++ messages o)
                    (ran w ++ [(c, status o, messages o)]) in
    match status o with
    | O => (inl tt, w')
    | S n => (inr (S n), w')
    end.

(** [exit n] and [echo msg >&2]. *)
Definition exit {A : Type} (n : nat) : sh A := fun w => (inr n, w).

Definition echo_err (msg : string) : sh unit :=
  fun w => (inl tt, World (fs w) (cwd w) (stderr w ++ [msg]) (ran w)).

(** [( body )]: the body runs in a subshell, so the working directory
    of the script is not changed; a body ended by a failing command
    gives its status to the subshell, and [set -e] ends the script with
    it. *)
Definition subshell (body : sh unit) : sh unit :=
  fun w =>
    let '(r, w') := body w in
    let back := World (fs w') (cwd w) (stderr w') (ran w') in
    match r with
    | inr (S n) => (inr (S n), back)
    | _ => (inl tt, back)
    end.

(** [VAR=$(cd dir && pwd)]: the list runs in a subshell; where [cd]
    fails [pwd] is not run, the substitution and with it the assignment
    have the status of [cd], and [set -e] ends the script. *)
Definition cd_and_pwd `{Host} (dir : path) : sh path :=
  fun w =>
    let '(r, w') := simple (Cd dir) w in
    let back := World (fs w') (cwd w) (stderr w') (ran w') in
    match r with
    | inl _ => (inl (cwd w'), back)
    | inr st => (inr st, back)
    end.

(** ["$(dirname ...)"] written as the argument of another command: what
    [dirname] has printed is the argument, its messages go to the
    standard error stream of the script, and its exit status is lost:
    the shell looks at the status of the command the argument belongs
    to, so [set -e] does not act on it.  It is not a command of the
    script's own and is not entered into the log. *)
Definition printed (r : nat * option path * list string) : sh (option path) :=
  fun w => (inl r.1.2, World (fs w) (cwd w) (stderr w ++ r.2) (ran w)).

(** [VAR=$(cd "$arg" && pwd)] where [arg] may be empty: bash reads
    [cd ""] as a [cd] that stays where it is, with status 0, and [pwd]
    prints the working directory.  With paths from the root, as here,
    that is a [cd] to the working directory, and is logged so. *)
Definition cd_and_pwd_at `{Host} (arg : option path) : sh path :=
  match arg with
  | Some dir => cd_and_pwd dir
  | None =>
      fun w =>
        (inl (cwd w),
         World (fs w) (cwd w) (stderr w) (ran w ++ [(Cd (cwd w), O, [])]))
  end.

(** How a script is called: [$0], the path in [BASH_SOURCE[0]] and the
    arguments. *)
Record invocation := Invocation {
  arg0 : string;
  bash_source : path;
  argv : list string
}.

(** [SCRIPT_DIR=$(cd "$(dirname "${BASH_SOURCE[0]}")" && pwd)], the line
    both scripts find their directory with, for the [dirname] of the
    system. *)
Definition find_script_dir `{Host} (tool : dirname_command) (i : invocation)
  : sh path :=
  arg ← printed (tool (bash_source i));
  cd_and_pwd_at arg.

(** ["${1:-}"] *)
Definition arg1 (i : invocation) : string := default ""%string (head (argv i)).

(** *** simulationCases/runCases.sh *)

(** The script, for the [dirname] of the system it runs on. *)
Definition runCases_sh `{Host} (tool : dirname_command) (i : invocation)
  : sh unit :=
  if String.eqb (arg1 i) ""
  then
    echo_err ("Usage: " ++ arg0 i ++ " <case-name>");;
    exit 1
  else
    let CASE_NAME := arg1 i in
    SCRIPT_DIR ← find_script_dir tool i;
    REPO_ROOT ← cd_and_pwd (SCRIPT_DIR ++ [".."%string]);
    let CASE_DIR := SCRIPT_DIR ++ [CASE_NAME] in
    let CASE_SOURCE := SCRIPT_DIR ++ [(CASE_NAME ++ ".c")%string] in
    simple (Mkdir_p CASE_DIR);;
    simple (Cp CASE_SOURCE CASE_DIR);;
    subshell (
      simple (Cd REPO_ROOT);;
      simple (Qcc (REPO_ROOT ++ ["src-local"%string]) CASE_SOURCE
                  (CASE_DIR ++ [CASE_NAME]))
    );;
    subshell (
      simple (Cd CASE_DIR);;
      simple (Exec CASE_NAME)
    ).

(** The script where [dirname] works. *)
Definition runCases `{Host} (i : invocation) : sh unit :=
  runCases_sh gnu_dirname i.

(** *** simulationCases/cleanup.sh *)

(** The script, for the [dirname] of the system it runs on. *)
Definition cleanup_sh `{Host} (tool : dirname_command) (i : invocation)
  : sh unit :=
  if String.eqb (arg1 i) ""
  then
    echo_err ("Usage: " ++ arg0 i ++ " <case-name>");;
    exit 1
  else
    let CASE_NAME := arg1 i in
    SCRIPT_DIR ← find_script_dir tool i;
    let CASE_DIR := SCRIPT_DIR ++ [CASE_NAME] in
    simple (Rm_rf CASE_DIR).

(** The script where [dirname] works. *)
Definition cleanup `{Host} (i : invocation) : sh unit :=
  cleanup_sh gnu_dirname i.

(** *** Notions of the statements about the scripts *)

(** The exit status of a script. *)
Definition exit_status (r : unit + nat) : nat :=
  match r with inl _ => O | inr n => n end.

(** What a script has run: the log entries added to [w]. *)
Definition newly_ran (w w' : world) : list (command * nat * list string) :=
  drop (length (ran w)) (ran w').

(** A case name: one path component that is not empty, [.] or [..]. *)
Definition valid_case_name (n : string) : bool :=
  negb (String.eqb n "") && negb (String.eqb n ".") &&
  negb (String.eqb n "..") &&
  negb (existsb (Ascii.eqb (Ascii.ascii_of_nat 47)) (String.list_ascii_of_string n)).

(** The paths and the commands of [runCases.sh <n>], in the order of
    the script. *)
Definition script_dir (i : invocation) : path :=
  resolve (dirname (bash_source i)).

Definition repo_root (i : invocation) : path :=
  resolve (script_dir i ++ [".."%string]).

Definition case_dir (i : invocation) (n : string) : path :=
  script_dir i ++ [n].

Definition case_source (i : invocation) (n : string) : path :=
  script_dir i ++ [(n ++ ".c")%string].

Definition build_plan (i : invocation) (n : string) : list command :=
  [ Cd (dirname (bash_source i));
    Cd (script_dir i ++ [".."%string]);
    Mkdir_p (case_dir i n);
    Cp (case_source i n) (case_dir i n);
    Cd (repo_root i);
    Qcc (repo_root i ++ ["src-local"%string]) (case_source i n)
        (case_dir i n ++ [n]);
    Cd (case_dir i n);
    Exec n ].

(** Strict failure propagation of a piece of script: of the commands of
    its own it has run (those of the log), either none failed, or the
    one that failed is the last, its status is the exit status, and its
    messages are the last lines on the standard error stream. *)
Definition all_ok (l : list (command * nat * list string)) : Prop :=
  Forall (fun e => e.1.2 = O) l.

Definition strict {A : Type} (m : sh A) : Prop :=
  forall w : world,
    exists new : list (command * nat * list string),
      ran (m w).2 = ran w ++ new /\
      (all_ok new \/
       exists pre c st msg,
         new = pre ++ [(c, st, msg)] /\ all_ok pre /\ st <> O /\
         (m w).1 = inr st /\ msg `suffix_of` stderr (m w).2).

(** A host to run the scripts on.  [qcc] compiles a source file that is
    not empty to the text ["ELF:"] followed by the source, with a
    warning for the source ["int main(){int x;}"]; it fails with status
    1 on an empty or missing source, leaving the output path alone, and
    on the source ["int main(){f();}"], which does not link, removing
    what is at the output path.  A program writes the file [f.mp4] in
    its directory and exits with 0, or, when it was built from the
    source ["crash"], writes nothing and exits with 3. *)
Definition test_host : Host :=
  {| qcc_compile := fun f _ _ src _ =>
       match f !! src with
       | Some (File c) =>
           if String.eqb c ""
           then Rejected 0 ["qcc: compilation failed"%string] false
           else if String.eqb c "int main(){f();}"
           then Rejected 0 ["ld: undefined reference to f"%string] true
           else if String.eqb c "int main(){int x;}"
           then Compiled ("ELF:" ++ c)
                         ["warning: unused variable x"%string]
           else Compiled ("ELF:" ++ c) []
       | _ => Rejected 0 ["qcc: no such file"%string] false
       end;
     execute := fun bin d f =>
       if String.eqb bin "ELF:crash"
       then (3%nat, f, ["Segmentation fault"%string])
       else (O, <[d ++ ["f.mp4"%string] := File "frames"]> f, []) |}.

(** A [dirname] that fails, as the one of coreutils does on a path that
    reads as an option: it prints nothing and ends with status 1. *)
Definition broken_dirname : dirname_command :=
  fun _ => (1%nat, None, ["dirname: invalid option"%string]).

(** A checkout with the two scripts and one case file, and one without
    the case file. *)
Definition checkout (source : string) : gmap path node :=
  list_to_map
    [ (["repo"%string], Dir);
      (["repo"; "simulationCases"]%string, Dir);
      (["repo"; "simulationCases"; "runCases.sh"]%string, File "#!/bin/bash");
      (["repo"; "simulationCases"; "cleanup.sh"]%string, File "#!/bin/bash");
      (["repo"; "simulationCases"; "keller-segel.c"]%string, File source) ].

Definition bare_checkout : gmap path node :=
  list_to_map
    [ (["repo"%string], Dir);
      (["repo"; "simulationCases"]%string, Dir);
      (["repo"; "simulationCases"; "runCases.sh"]%string, File "#!/bin/bash") ].

Definition at_checkout (f : gmap path node) : world :=
  World f ["repo"%string] [] [].

Definition call (script : string) (args : list string) : invocation :=
  Invocation ("./simulationCases/" ++ script)
             ["repo"; "simulationCases"; script]%string args.

(** A component [cd] reads as a name. *)
Definition plain (c : string) : Prop := c <> "."%string /\ c <> ".."%string.

(** The commands of a log, and a piece of script following a plan: what
    it runs is the plan when it goes on, and the plan up to the command
    that failed when it ends the shell. *)
Definition commands (l : list (command * nat * list string)) : list command :=
  map (fun e => e.1.1) l.

Definition follows {A : Type} (plan : list command) (m : sh A) : Prop :=
  forall w : world,
    exists new : list (command * nat * list string),
      ran (m w).2 = ran w ++ new /\
      match (m w).1 with
      | inl _ => commands new = plan
      | inr st => commands new `prefix_of` plan /\ st <> O
      end.

(** ** Further notions *)

(** The frames of the movie among what was written. *)
Definition is_movie_frame (o : output) : bool :=
  match o with
  | Ppm f _ _ _ _ => String.eqb f "f.mp4"
  | Progress _ _ _ _ _ => false
  end.

Definition movie_frames (l : list output) : list output :=
  List.filter is_movie_frame l.

(** The directories above and including [p] exist. *)
Definition rooted (f : gmap path node) (p : path) : Prop :=
  forall q, q ∈ ancestors p -> f !! q = Some Dir.

(** A compiled program that writes only at or below its working
    directory. *)
Definition confined `{Host} : Prop :=
  forall (bin : string) (d : path) (f : gmap path node) (p : path),
    ~ d `prefix_of` p -> (execute bin d f).1.2 !! p = f !! p.

(** What [runCases.sh <n>] needs to get as far as starting the program:
    the directory of the script and the root of the repository exist, no
    file is in the way of the output directory, [<n>.c] is a file with
    content [c], neither the copy nor the executable would overwrite a
    directory, and [qcc] compiles the source to [bin], printing
    [warnings]. *)
Definition copied (i : invocation) (n c : string) (f : gmap path node)
  : gmap path node :=
  <[case_dir i n ++ [(n +:+ ".c")%string] := File c]> (mkdir_p f (case_dir i n)).

Definition built (i : invocation) (n c bin : string) (f : gmap path node)
  : gmap path node :=
  <[case_dir i n ++ [n] := File bin]> (copied i n c f).

Definition preparable (i : invocation) (n c : string)
    (f : gmap path node) : Prop :=
  is_dir f (script_dir i) = true /\
  is_dir f (repo_root i) = true /\
  blocked f (case_dir i n) = false /\
  f !! case_source i n = Some (File c) /\
  is_dir f (case_dir i n ++ [(n +:+ ".c")%string]) = false.

Definition buildable `{Host} (i : invocation) (n c bin : string)
    (warnings : list string) (f : gmap path node) : Prop :=
  preparable i n c f /\
  is_dir f (case_dir i n ++ [n]) = false /\
  qcc_compile (copied i n c f) (repo_root i)
    (repo_root i ++ ["src-local"%string]) (case_source i n)
    (case_dir i n ++ [n]) = Compiled bin warnings.

(** * Properties of the case files *)

Arguments val : simpl never.
Arguments foreach : simpl never.

Section Fields.

Lemma val_replicate (n j : nat) (v : Qc) :
  (j < n)%nat -> val (replicate n v) j = v.
Proof.
  intros Hj. unfold val.
  revert j Hj. induction n as [|n IH]; intros [|j] Hj; simpl; try lia; auto.
  apply IH. lia.
Qed.

Lemma val_map_seq (body : nat -> Qc) (n j a : nat) :
  (j < n)%nat -> val (map body (seq a n)) j = body (a + j)%nat.
Proof.
  unfold val. revert a j. induction n as [|n IH]; intros a [|j] Hj; simpl; try lia.
  - f_equal. lia.
  - rewrite IH by lia. f_equal. lia.
Qed.

Lemma val_foreach (s : sim) (body : nat -> Qc) (j : nat) :
  (j < N s * N s)%nat -> val (foreach s body) j = body j.
Proof. intros Hj. unfold foreach. now rewrite val_map_seq. Qed.

Lemma map_seq_const (v : Qc) (n a : nat) :
  map (fun _ => v) (seq a n) = replicate n v.
Proof. revert a. induction n as [|n IH]; intros a; simpl; [|rewrite IH]; reflexivity. Qed.

Lemma foreach_const (s : sim) (v : Qc) :
  foreach s (fun _ => v) = replicate (N s * N s) v.
Proof. apply map_seq_const. Qed.

Lemma foreach_ext (s : sim) (f g : nat -> Qc) :
  (forall j, (j < N s * N s)%nat -> f j = g j) -> foreach s f = foreach s g.
Proof.
  intros Hfg. unfold foreach. apply map_ext_in. intros j Hj.
  apply in_seq in Hj. apply Hfg. lia.
Qed.

Lemma length_foreach (s : sim) (body : nat -> Qc) :
  length (foreach s body) = (N s * N s)%nat.
Proof. unfold foreach. now rewrite length_map, length_seq. Qed.

End Fields.

(** The source terms of the two solves vanish at the stationary
    solution. *)
Lemma C1_source_vanishes (kb : Qc) :
  KellerSegel.k * KellerSegel.ka
  + KellerSegel.k * (KellerSegel.ka * (kb / KellerSegel.ka) - kb - 1)
    * KellerSegel.ka = 0.
Proof. unfold KellerSegel.k. field. discriminate. Qed.

Lemma C2_source_vanishes (kb : Qc) :
  KellerSegel.k * kb * KellerSegel.ka
  + - KellerSegel.k * sq KellerSegel.ka * (kb / KellerSegel.ka) = 0.
Proof. unfold KellerSegel.k, sq. field. discriminate. Qed.

Section FixedPoint.
Context `{Basilisk}.
Hypothesis Hnoise : no_noise.
Hypothesis Hsolve : keeps_equilibria.

Import KellerSegel.

Lemma init_stationary (s : sim) : stationary (init s).
Proof.
  unfold init, stationary; cbn. split.
  - now rewrite foreach_const.
  - rewrite <- map_seq_const with (a := 0%nat). unfold foreach; cbn.
    apply map_ext. intros j. rewrite Hnoise. ring.
Qed.

Lemma integration_fields (s : sim) :
  stationary s ->
  C1 (integration s) = C1 s /\ C2 (integration s) = C2 s /\
  kb (integration s) = kb s /\ N (integration s) = N s.
Proof.
  intros [H1 H2]. unfold integration; cbn.
  destruct (diffusion (C1 s) _ None _ _) as [f1 st1] eqn:E1. cbn.
  destruct (diffusion (C2 s) _ (Some _) _ _) as [f2 st2] eqn:E2. cbn.
  assert (Hf1 : f1 = C1 s).
  { match type of E1 with
    | diffusion _ ?h ?c ?r ?b = _ =>
        pose proof (Hsolve (N s * N s)%nat ka h c r b) as Hx
    end.
    rewrite <- H1, E1 in Hx. apply Hx. intros j Hj.
    rewrite !val_foreach by (cbn; exact Hj).
    rewrite H1, H2, !val_replicate by exact Hj.
    apply C1_source_vanishes. }
  assert (Hf2 : f2 = C2 s).
  { match type of E2 with
    | diffusion _ ?h ?c ?r ?b = _ =>
        pose proof (Hsolve (N s * N s)%nat (kb s / ka) h c r b) as Hx
    end.
    rewrite <- H2, E2 in Hx. apply Hx. intros j Hj.
    rewrite !val_foreach by (cbn; exact Hj).
    rewrite Hf1, H1, !val_replicate by exact Hj.
    apply C2_source_vanishes. }
  auto.
Qed.

Lemma integration_stationary (s : sim) :
  stationary s -> stationary (integration s).
Proof.
  intros Hs. destruct (integration_fields s Hs) as (E1 & E2 & E3 & E4).
  unfold stationary. rewrite E1, E2, E3, E4. exact Hs.
Qed.

Lemma write_stationary (o : output) (s : sim) :
  stationary s -> stationary (write o s).
Proof. intros Hs; exact Hs. Qed.

Lemma step_stationary (s : sim) :
  iter s = 0%nat \/ stationary s -> stationary (step events s).
Proof.
  intros Hs. unfold step, events.
  assert (H0 : stationary (when (at_i 0) init s)).
  { unfold when, at_i. destruct Hs as [-> | Hs]; cbn.
    - apply init_stationary.
    - destruct (Nat.eqb (iter s) 0); [apply init_stationary | exact Hs]. }
  set (s0 := when (at_i 0) init s) in *.
  assert (H1 : stationary (when (from_i_every 1 10) movie s0)).
  { unfold when. destruct (from_i_every 1 10 s0); [|exact H0].
    unfold movie. now do 2 apply write_stationary. }
  set (s1 := when (from_i_every 1 10) movie s0) in *.
  assert (H2 : stationary (when (at_t (frac 3000 1)) final s1)).
  { unfold when. destruct (at_t _ s1); [|exact H1].
    unfold final. now apply write_stationary. }
  apply integration_stationary in H2. exact H2.
Qed.

Lemma steps_stationary (s : sim) (n : nat) :
  stationary (steps events (S n) (start s)).
Proof.
  induction n as [|n IH].
  - simpl. apply step_stationary. left. reflexivity.
  - change (steps events (S (S n)) (start s))
      with (step events (steps events (S n) (start s))).
    apply step_stationary. right. exact IH.
Qed.

End FixedPoint.

(** The framework [quiet] meets both assumptions. *)
Lemma quiet_no_noise : @no_noise quiet.
Proof. intros j. reflexivity. Qed.

Lemma euler_cell_equilibrium (h v rj bj : Qc) :
  rj + bj * v = 0 -> euler_cell h v rj bj = v.
Proof.
  intros Hz. unfold euler_cell. case_bool_decide as Hd; [reflexivity|].
  assert (Hr : rj = - (bj * v)).
  { rewrite <- (Qcplus_0_r (- (bj * v))), <- Hz. ring. }
  rewrite Hr. field. exact Hd.
Qed.

Lemma quiet_keeps_equilibria : @keeps_equilibria quiet.
Proof.
  intros n v h c r beta Hz.
  change (map (fun j => euler_cell h (val (replicate n v) j) (val r j)
                          (val beta j))
            (seq 0 (length (replicate n v))) = replicate n v).
  rewrite length_replicate.
  transitivity (map (fun _ : nat => v) (seq 0 n)); [|apply map_seq_const].
  apply map_ext_in. intros j Hj. apply in_seq in Hj.
  rewrite val_replicate by lia. apply euler_cell_equilibrium, Hz. lia.
Qed.

(** ** C1: the stationary solution is a fixed point of the run *)

(** C1, in exact arithmetic.  With zero perturbation ([no_noise]) and a
    diffusion solver that returns a uniform field unchanged where its
    source vanishes ([keeps_equilibria]): the [init] event puts the
    fields at
    [C1 = ka], [C2 = kb/ka] in every cell; there the sources of both
    solves sum to zero ([k ka + k (C1 C2 - kb - 1) C1 = 0] and
    [k kb C1 - k C1^2 C2 = 0]); an integration step at such a state
    returns both fields unchanged; and the state at the start of every
    iteration after the first of a run is at the fixed point, whatever
    the number of steps. *)
Theorem stationary_solution_is_kept `{Basilisk} :
  no_noise -> keeps_equilibria ->
  forall s : sim,
    stationary (KellerSegel.init s) /\
    (forall kb : Qc,
       KellerSegel.k * KellerSegel.ka
       + KellerSegel.k * (KellerSegel.ka * (kb / KellerSegel.ka) - kb - 1)
         * KellerSegel.ka = 0 /\
       KellerSegel.k * kb * KellerSegel.ka
       + - KellerSegel.k * sq KellerSegel.ka * (kb / KellerSegel.ka) = 0) /\
    (forall s' : sim,
       stationary s' ->
       C1 (KellerSegel.integration s') = C1 s' /\
       C2 (KellerSegel.integration s') = C2 s') /\
    (forall n : nat,
       stationary (steps KellerSegel.events (S n) (start s))).
Proof.
  intros Hnoise Hsolve s. split; [|split; [|split]].
  - now apply init_stationary.
  - intros kb0. split; [apply C1_source_vanishes | apply C2_source_vanishes].
  - intros s' Hs'.
    destruct (integration_fields Hsolve s' Hs') as (E1 & E2 & _). now split.
  - intros n. now apply steps_stationary.
Qed.

Lemma stationary_solution_is_kept_witness :
  @no_noise quiet /\ @keeps_equilibria quiet /\
  stationary
    (steps (@KellerSegel.events quiet) 3000
       (start (set_mu (frac 4 100) (size (frac 64 1) (init_grid 128 boot))))).
Proof.
  split; [exact quiet_no_noise | split; [exact quiet_keeps_equilibria |]].
  apply (@stationary_solution_is_kept quiet quiet_no_noise
           quiet_keeps_equilibria).
Defined.

(** C1 in the arithmetic of the program.  In binary64, with [mu = 0.04]
    and no noise, [init] puts the cell at [C1 = ka], [C2 = kb/ka]; the
    sources of the [C1] solve cancel, those of the [C2] solve do not:
    [k kb C1 + (- k C1^2) C2] is [2^-48]. *)
Lemma binary64_C2_sources_do_not_cancel :
  let '(kb, c1, c2) :=
    Binary64.init_cell 0x1.47ae147ae147bp-5%float 0%float in
  let '(r1, beta1) := Binary64.sources1 kb c1 c2 in
  let '(r2, beta2) := Binary64.sources2 kb c1 in
  c1 = Binary64.ka /\ c2 = (kb / Binary64.ka)%float /\
  (r1 + beta1 * c1)%float = 0%float /\
  (r2 + beta2 * c2)%float = 0x1p-48%float /\
  PrimFloat.eqb (r2 + beta2 * c2) 0 = false.
Proof. vm_compute. repeat split. Qed.

(** The model runs: three iterations on a 2 x 2 grid, without and with
    a perturbation. *)
Example quiet_run_2x2 :
  let s := steps (@KellerSegel.events quiet) 3
             (start (set_mu (frac 4 100) (init_grid 2 boot))) in
  C1 s = replicate 4 (frac 9 2) /\ (iter s, t s) = (3%nat, frac 3 1).
Proof. vm_compute. split; [f_equal|]; repeat f_equal; apply Qc_is_canon; reflexivity. Qed.

(** ** C2: the two case files are the same program *)

(** C2.  Over one framework (so with the same noise sequence), the
    Keller-Segel case file and the Brusselator case file have the same
    constants, the same four events, the same schedule of events and the
    same [main]: the same grid set-up, the same three values of [mu] in
    the same order, and, for every bound on the number of iterations, the
    same final state, which holds everything written (movie frames,
    progress lines, final images). *)
Theorem case_files_agree `{Basilisk} :
  (KellerSegel.k, KellerSegel.ka, KellerSegel.D)
  = (Brusselator.k, Brusselator.ka, Brusselator.D) /\
  (forall s : sim,
     KellerSegel.init s = Brusselator.init s /\
     KellerSegel.movie s = Brusselator.movie s /\
     KellerSegel.final s = Brusselator.final s /\
     KellerSegel.integration s = Brusselator.integration s /\
     KellerSegel.events s = Brusselator.events s) /\
  (forall (fuel : nat) (s : sim),
     KellerSegel.run fuel s = Brusselator.run fuel s) /\
  (forall fuel : nat, KellerSegel.main fuel = Brusselator.main fuel).
Proof. repeat split. Qed.

(** ** C10: the second solve reads the updated [C1] *)

Lemma sequential_differs_from_simultaneous :
  let s := @KellerSegel.init noisy (set_mu (frac 4 100) (init_grid 1 boot)) in
  @integration_sequential noisy s <> @integration_simultaneous noisy s.
Proof.
  intros s E.
  apply (f_equal (fun x => Qnum (this (val (C2 x) 0)))) in E.
  vm_compute in E. discriminate E.
Qed.

(** C10.  The integration step of both case files is the sequential
    splitting: the source [r = k kb C1] and the coefficient
    [beta = - k C1^2] of the [C2] solve are computed from the field the
    [C1] solve of the same step has returned; the fields [r] and [beta]
    of the first solve are assigned anew for the second.  This is not the
    splitting that feeds both solves from the values before the step:
    the two differ on a perturbed state. *)
Theorem integration_is_sequential :
  (forall (B : Basilisk) (s : sim),
     @KellerSegel.integration B s = @integration_sequential B s /\
     @Brusselator.integration B s = @integration_sequential B s) /\
  (exists (B : Basilisk) (s : sim),
     @KellerSegel.integration B s <> @integration_simultaneous B s).
Proof.
  split.
  - intros B s. unfold KellerSegel.integration, Brusselator.integration,
      integration_sequential.
    cbn -[diffusion].
    destruct (diffusion (C1 s) _ None _ _) as [f1 st1]. cbn -[diffusion].
    destruct (diffusion (C2 s) _ (Some _) _ _) as [f2 st2]. now split.
  - exists noisy, (@KellerSegel.init noisy (set_mu (frac 4 100) (init_grid 1 boot))).
    intros E. apply sequential_differs_from_simultaneous.
    rewrite <- E. clear E.
    unfold KellerSegel.integration, integration_sequential.
    cbn -[diffusion].
    destruct (diffusion _ _ None _ _) as [f1 st1]. cbn -[diffusion].
    destruct (diffusion _ _ (Some _) _ _) as [f2 st2]. reflexivity.
Qed.

(** ** What an iteration changes *)

Section Iteration.
Context `{Basilisk}.
Import KellerSegel.

Lemma init_frame (s : sim) :
  frame (init s) = frame s /\ out (init s) = out s /\
  dt (init s) = dt s /\ mgd1 (init s) = mgd1 s /\ mgd2 (init s) = mgd2 s /\
  drawn (init s) = (drawn s + N s * N s)%nat.
Proof. repeat split. Qed.

Lemma integration_frame (s : sim) :
  frame (integration s) = frame s /\ out (integration s) = out s /\
  kb (integration s) = kb s /\ drawn (integration s) = drawn s /\
  dt (integration s) = dtnext (t s) 1.
Proof.
  unfold integration. cbn -[diffusion].
  destruct (diffusion (C1 s) _ None _ _) as [f1 st1]. cbn -[diffusion].
  destruct (diffusion (C2 s) _ (Some _) _ _) as [f2 st2]. repeat split.
Qed.

Lemma from_i_every_1_10 (s : sim) :
  from_i_every 1 10 s = true <-> iter s mod 10 = 1%nat.
Proof.
  unfold from_i_every.
  rewrite andb_true_iff, Nat.leb_le, Nat.eqb_eq.
  pose proof (Nat.div_mod_eq (iter s - 1) 10).
  pose proof (Nat.div_mod_eq (iter s) 10).
  pose proof (Nat.mod_upper_bound (iter s) 10).
  pose proof (Nat.mod_upper_bound (iter s - 1) 10).
  lia.
Qed.

Lemma events_frame (s : sim) :
  frame (events s) = frame s /\
  out (events s) = out s ++ movie_output s ++ final_output s /\
  drawn (events s) = (drawn s + if at_i 0 s then N s * N s else 0)%nat /\
  dt (events s) = dtnext (t s) 1.
Proof.
  unfold events.
  set (s0 := when (at_i 0) init s).
  assert (H0 : frame s0 = frame s /\ out s0 = out s /\ dt s0 = dt s /\
               mgd1 s0 = mgd1 s /\ mgd2 s0 = mgd2 s /\
               drawn s0 = (drawn s + if at_i 0 s then N s * N s else 0)%nat).
  { subst s0. unfold when. destruct (at_i 0 s).
    - apply init_frame.
    - repeat split. lia. }
  destruct H0 as (F0 & O0 & D0 & M1 & M2 & R0).
  assert (Ei : iter s0 = iter s) by (now injection F0).
  assert (Et : t s0 = t s) by (now injection F0).
  assert (Em : mu s0 = mu s) by (now injection F0).
  set (s1 := when (from_i_every 1 10) movie s0).
  assert (H1 : frame s1 = frame s /\ out s1 = out s ++ movie_output s /\
               drawn s1 = drawn s0 /\ C1 s1 = C1 s0).
  { subst s1. unfold when, movie_output.
    replace (from_i_every 1 10 s0) with (from_i_every 1 10 s)
      by (unfold from_i_every; now rewrite Ei).
    destruct (from_i_every 1 10 s); cbn.
    - rewrite O0, Ei, Et, D0, M1, M2, <- app_assoc. now repeat split.
    - rewrite O0, app_nil_r. now repeat split. }
  destruct H1 as (F1 & O1 & R1 & E1).
  assert (Et1 : t s1 = t s) by (now injection F1).
  assert (Em1 : mu s1 = mu s) by (now injection F1).
  set (s2 := when (at_t (frac 3000 1)) final s1).
  assert (H2 : frame s2 = frame s /\
               out s2 = out s ++ movie_output s ++ final_output s /\
               drawn s2 = drawn s0).
  { subst s2. unfold when, final_output.
    replace (at_t (frac 3000 1) s1) with (at_t (frac 3000 1) s)
      by (unfold at_t; now rewrite Et1).
    destruct (at_t (frac 3000 1) s); cbn.
    - rewrite O1, Em1, E1, <- app_assoc. now repeat split.
    - rewrite O1, app_nil_r. now repeat split. }
  destruct H2 as (F2 & O2 & R2).
  assert (Et2 : t s2 = t s) by (now injection F2).
  destruct (integration_frame s2) as (F & O & _ & R & Dt).
  rewrite F, O, R, Dt, F2, O2, R2, R0, Et2. now repeat split.
Qed.

Lemma events_written (s : sim) :
  written s (events s) = movie_output s ++ final_output s.
Proof.
  unfold written. destruct (events_frame s) as (_ & -> & _).
  apply drop_app_length.
Qed.

Lemma events_progress (s : sim) :
  progress_lines (written s (events s))
  = if decide (iter s mod 10 = 1%nat)
    then [Progress (iter s) (t s) (dt s) (mg_i (mgd1 s)) (mg_i (mgd2 s))]
    else [].
Proof.
  rewrite events_written. unfold movie_output, final_output.
  pose proof (from_i_every_1_10 s) as Hm.
  destruct (from_i_every 1 10 s); destruct (decide _) as [Hd|Hd];
    try (exfalso; intuition congruence);
    destruct (at_t _ s); reflexivity.
Qed.

End Iteration.

(** ** C3: progress lines *)

(** C3, as the code has it.  The progress line is printed by the [movie]
    event, which is declared [(i = 1; i += 10)]: in an iteration whose
    index [i] is 1, 11, 21, ... the events write exactly one progress
    line, holding [i], the time [t], the timestep [dt] and the iteration
    counts [mgd1.i] and [mgd2.i] of the two diffusion solves; in every
    other iteration they write none. *)
Theorem progress_line_every_tenth_iteration `{Basilisk} (s : sim) :
  progress_lines (written s (KellerSegel.events s))
  = if decide (iter s mod 10 = 1%nat)
    then [Progress (iter s) (t s) (dt s) (mg_i (mgd1 s)) (mg_i (mgd2 s))]
    else [].
Proof. apply events_progress. Qed.

(** ** The time loop *)

Section Loop.
Variable events : sim -> sim.
Variable t_end : Qc.

Lemma steps_shift (n : nat) (s : sim) :
  steps events (S n) s = steps events n (step events s).
Proof.
  induction n as [|n IH]; [reflexivity|].
  change (steps events (S (S n)) s) with (step events (steps events (S n) s)).
  now rewrite IH.
Qed.

Lemma loop_Some (fuel : nat) (s s' : sim) :
  loop events t_end fuel s = Some s' ->
  exists n : nat,
    (n < fuel)%nat /\ s' = events (steps events n s) /\
    at_t t_end (steps events n s) = true /\
    forall i : nat, (i < n)%nat -> at_t t_end (steps events i s) = false.
Proof.
  revert s. induction fuel as [|fuel IH]; intros s Hl; [discriminate|].
  simpl in Hl. destruct (at_t t_end s) eqn:Ht.
  - exists 0%nat. injection Hl as <-. repeat split; [lia|exact Ht|lia].
  - apply IH in Hl. destruct Hl as (n & Hn & -> & Hend & Hbefore).
    exists (S n). rewrite steps_shift. repeat split; [lia|exact Hend|].
    intros [|i] Hi; [exact Ht|]. rewrite steps_shift. apply Hbefore. lia.
Qed.

Lemma loop_complete (n fuel : nat) (s : sim) :
  at_t t_end (steps events n s) = true ->
  (forall i : nat, (i < n)%nat -> at_t t_end (steps events i s) = false) ->
  (n < fuel)%nat ->
  loop events t_end fuel s = Some (events (steps events n s)).
Proof.
  revert fuel s. induction n as [|n IH]; intros fuel s Hend Hbefore Hf.
  - destruct fuel as [|fuel]; [lia|]. simpl in *. now rewrite Hend.
  - destruct fuel as [|fuel]; [lia|]. simpl.
    pose proof (Hbefore 0%nat ltac:(lia)) as H0. simpl in H0. rewrite H0.
    rewrite steps_shift in Hend.
    change (step events (steps events n s)) with (steps events (S n) s).
    rewrite steps_shift.
    apply (IH fuel (step events s)); [exact Hend| |lia].
    intros i Hi. rewrite <- steps_shift. apply Hbefore. lia.
Qed.

End Loop.

Section Run.
Context `{Basilisk}.
Import KellerSegel.

Lemma step_frame (s : sim) :
  (N (step events s), L0 (step events s), mu (step events s))
  = (N s, L0 s, mu s) /\
  iter (step events s) = S (iter s) /\
  t (step events s) = t s + dtnext (t s) 1 /\
  out (step events s) = out (events s) /\
  drawn (step events s) = drawn (events s).
Proof.
  destruct (events_frame s) as (F & _ & _ & Dt).
  unfold step, advance. cbn. rewrite Dt.
  injection F as -> -> _ -> -> ->. now repeat split.
Qed.

Lemma steps_iter (n : nat) (s : sim) :
  iter (steps events n (start s)) = n.
Proof.
  induction n as [|n IH]; [reflexivity|]. cbn [steps].
  destruct (step_frame (steps events n (start s))) as (_ & -> & _).
  now rewrite IH.
Qed.

Lemma steps_grid (n : nat) (s : sim) :
  (N (steps events n s), L0 (steps events n s), mu (steps events n s))
  = (N s, L0 s, mu s).
Proof.
  induction n as [|n IH]; [reflexivity|]. cbn [steps].
  destruct (step_frame (steps events n s)) as (-> & _). exact IH.
Qed.

Lemma at_i_steps (n : nat) (s : sim) :
  at_i 0 (steps events n (start s)) = Nat.eqb n 0.
Proof. unfold at_i. now rewrite steps_iter. Qed.

Lemma steps_drawn (n : nat) (s : sim) :
  drawn (steps events n (start s))
  = (drawn s + match n with O => 0 | S _ => N s * N s end)%nat.
Proof.
  induction n as [|n IH]; [cbn; lia|]. cbn [steps].
  destruct (step_frame (steps events n (start s))) as (_ & _ & _ & _ & ->).
  destruct (events_frame (steps events n (start s))) as (_ & _ & -> & _).
  rewrite IH, at_i_steps.
  pose proof (steps_grid n (start s)) as G. injection G as -> _ _.
  destruct n; cbn; lia.
Qed.

End Run.

(** The first iteration of the first run of [main] writes no progress
    line, and neither does the third. *)
Lemma no_progress_line_at_iteration_0 :
  let s0 := start (set_mu (frac 4 100) configured) in
  let s2 := steps (@KellerSegel.events quiet) 2 s0 in
  iter s0 = 0%nat /\
  progress_lines (written s0 (@KellerSegel.events quiet s0)) = [] /\
  iter s2 = 2%nat /\
  progress_lines (written s2 (@KellerSegel.events quiet s2)) = [].
Proof.
  cbv zeta. rewrite !events_progress, steps_iter. repeat split.
Qed.

Section RunEnds.
Context `{Basilisk}.
Import KellerSegel.

Lemma final_images_app (l l' : list output) :
  final_images (l ++ l') = final_images l ++ final_images l'.
Proof. apply omap_app. Qed.

Lemma final_images_events (s : sim) :
  final_images (out (events s))
  = final_images (out s)
    ++ (if at_t (frac 3000 1) s
        then [("mu-" ++ fmt_g (mu s) ++ ".png")%string] else []).
Proof.
  destruct (events_frame s) as (_ & -> & _).
  rewrite !final_images_app. f_equal.
  unfold movie_output, final_output.
  destruct (from_i_every 1 10 s), (at_t (frac 3000 1) s); reflexivity.
Qed.

Lemma steps_final_images (n : nat) (s : sim) :
  (forall i : nat, (i < n)%nat -> at_t (frac 3000 1) (steps events i s) = false) ->
  final_images (out (steps events n s)) = final_images (out s).
Proof.
  induction n as [|n IH]; intros Hb; [reflexivity|]. cbn [steps].
  destruct (step_frame (steps events n s)) as (_ & _ & _ & -> & _).
  rewrite final_images_events, (Hb n) by lia.
  rewrite app_nil_r. apply IH. intros i Hi. apply Hb. lia.
Qed.

(** What a run that ends has done. *)
Lemma run_Some (fuel : nat) (s s' : sim) :
  run fuel s = Some s' ->
  (exists n : nat, s' = events (steps events n (start s))) /\
  (N s', L0 s', mu s') = (N s, L0 s, mu s) /\
  drawn s' = (drawn s + N s * N s)%nat /\
  final_images (out s')
  = final_images (out s) ++ [("mu-" ++ fmt_g (mu s) ++ ".png")%string].
Proof.
  intros Hr. apply loop_Some in Hr.
  destruct Hr as (n & _ & -> & Hend & Hbefore).
  pose proof (steps_grid n (start s)) as G.
  destruct (events_frame (steps events n (start s))) as (F & _ & R & _).
  split; [now exists n|]. split; [|split].
  - injection F as -> -> _ _ _ ->. exact G.
  - rewrite R, steps_drawn, at_i_steps. injection G as -> _ _.
    destruct n; cbn; lia.
  - rewrite final_images_events, Hend, steps_final_images by exact Hbefore.
    injection G as _ _ ->. reflexivity.
Qed.

Lemma whole_S (n : nat) : whole n + 1 = whole (S n).
Proof.
  unfold whole. apply Qc_is_canon. simpl.
  rewrite !Qred_correct, Nat2Z.inj_succ. unfold Z.succ.
  rewrite inject_Z_plus. reflexivity.
Qed.

Lemma whole_inj (n m : nat) : whole n = whole m -> n = m.
Proof.
  unfold whole. intros E. apply (f_equal this) in E. simpl in E.
  apply Qred_eq_iff in E. unfold Qeq in E. simpl in E. lia.
Qed.

Lemma steps_time (n : nat) (s : sim) :
  unit_steps -> t (steps events n (start s)) = whole n.
Proof.
  intros Hu. induction n as [|n IH].
  - cbn. apply Qc_is_canon. reflexivity.
  - cbn [steps].
    destruct (step_frame (steps events n (start s))) as (_ & _ & -> & _).
    now rewrite Hu, IH, whole_S.
Qed.

Lemma run_ends (fuel : nat) (s : sim) :
  unit_steps -> (3001 <= fuel)%nat ->
  run fuel s = Some (events (steps events 3000 (start s))).
Proof.
  intros Hu Hf. unfold run, time_loop.
  assert (E : frac 3000 1 = whole 3000) by (apply Qc_is_canon; reflexivity).
  apply loop_complete; [| |lia].
  - unfold at_t. rewrite steps_time, E by exact Hu. now apply bool_decide_eq_true.
  - intros i Hi. unfold at_t. rewrite steps_time, E by exact Hu.
    apply bool_decide_eq_false. intros Ew. apply whole_inj in Ew. lia.
Qed.

Lemma first_iteration (s : sim) :
  events (start s) = integration (init (start s)).
Proof.
  unfold events. unfold when at 3. cbn [at_i start set_clock iter Nat.eqb].
  unfold when at 2.
  replace (from_i_every 1 10 (init (start s))) with false by reflexivity.
  unfold when.
  replace (at_t (frac 3000 1) (init (start s))) with false; [reflexivity|].
  symmetry. apply bool_decide_eq_false. cbn. intros E.
  apply (f_equal this) in E. discriminate E.
Qed.

Lemma later_iterations (n : nat) (s : sim) :
  when (at_i 0) init (steps events (S n) (start s))
  = steps events (S n) (start s).
Proof. unfold when. now rewrite at_i_steps. Qed.

Lemma init_overwrites (s s' : sim) :
  N s = N s' -> mu s = mu s' -> drawn s = drawn s' ->
  C1 (init s) = C1 (init s') /\ C2 (init s) = C2 (init s') /\
  kb (init s) = kb (init s').
Proof.
  intros EN Emu Ed. unfold init. cbn. unfold foreach. cbn.
  rewrite EN, Emu, Ed. repeat split.
Qed.

End RunEnds.

(** ** C7: three runs, each starting from fresh fields *)

Lemma main_is_three_runs `{Basilisk} (fuel : nat) :
  KellerSegel.main fuel
  = (s1 ← KellerSegel.run fuel (set_mu (frac 4 100) configured);
     s2 ← KellerSegel.run fuel (set_mu (frac 1 10) s1);
     KellerSegel.run fuel (set_mu (frac 98 100) s2)).
Proof. reflexivity. Qed.

Section Reinitialised.
Context `{Basilisk}.

(** What [init] assigns. *)
Lemma init_assigns (s : sim) :
  kb (KellerSegel.init s)
  = sq (1 + KellerSegel.ka * sqrt (1 / KellerSegel.D)) * (1 + mu s) /\
  C1 (KellerSegel.init s) = replicate (N s * N s) KellerSegel.ka /\
  length (C2 (KellerSegel.init s)) = (N s * N s)%nat /\
  (forall j : nat,
     (j < N s * N s)%nat ->
     val (C2 (KellerSegel.init s)) j
     = kb (KellerSegel.init s) / KellerSegel.ka
       + frac 1 100 * noise (drawn s + j)) /\
  drawn (KellerSegel.init s) = (drawn s + N s * N s)%nat.
Proof.
  unfold KellerSegel.init.
  cbn [kb C1 C2 drawn N set_kb set_C1 set_C2 set_drawn].
  split; [reflexivity|]. split; [now rewrite foreach_const|].
  split; [now rewrite length_foreach|]. split; [|reflexivity].
  intros j Hj. rewrite val_foreach by exact Hj. reflexivity.
Qed.

Lemma init_fresh (s : sim) (m : Qc) (first : nat) :
  N s = 128%nat -> mu s = m -> drawn s = first ->
  freshly_initialised m first (KellerSegel.init s).
Proof.
  intros EN Em Ed.
  destruct (init_assigns s) as (K & F1 & L2 & V2 & _).
  rewrite EN, Em, Ed in *. repeat split; assumption.
Qed.

End Reinitialised.

(** C7.  [main] is three runs one after the other, with [mu] set to
    0.04, 0.1 and 0.98 before each.  With unit timesteps every run ends
    (3001 iterations reach [t = 3000]), so [main] returns.  When [main]
    has returned, [noise()] has been called for three grids of cells
    ([init] ran three times) and three final images were written, named
    after the three values of [mu] in that order.  In each run the first
    iteration runs [init] and then [integration], and no later iteration
    runs [init].  [init] assigns [kb = kbcrit (1 + mu)], [C1 = ka] in
    every one of the [N x N] cells and [C2 = kb/ka + 0.01 noise()]
    there, drawing [N x N] values of the noise (the values are those of
    the formulas in exact arithmetic); so what it leaves in [C1], [C2]
    and [kb] depends on the grid, on [mu] and on the noise still to be
    drawn, and on nothing else.  In [main] that is: at the start of the
    first, second and third run the fields are those of 128 x 128 cells
    for [mu] = 0.04, 0.1 and 0.98, with the first, the second and the
    third 16384 values of the noise, whatever the run before has left
    in them. *)
Theorem three_runs_each_reinitialised `{Basilisk} :
  (forall fuel : nat,
     KellerSegel.main fuel
     = (s1 ← KellerSegel.run fuel (set_mu (frac 4 100) configured);
        s2 ← KellerSegel.run fuel (set_mu (frac 1 10) s1);
        KellerSegel.run fuel (set_mu (frac 98 100) s2))) /\
  (unit_steps ->
   forall fuel : nat, (3001 <= fuel)%nat -> is_Some (KellerSegel.main fuel)) /\
  (forall (fuel : nat) (s : sim),
     KellerSegel.main fuel = Some s ->
     drawn s = (3 * (128 * 128))%nat /\
     final_images (out s)
     = [("mu-" ++ fmt_g (frac 4 100) ++ ".png")%string;
        ("mu-" ++ fmt_g (frac 1 10) ++ ".png")%string;
        ("mu-" ++ fmt_g (frac 98 100) ++ ".png")%string]) /\
  (forall s : sim,
     KellerSegel.events (start s)
     = KellerSegel.integration (KellerSegel.init (start s))) /\
  (forall (s : sim) (n : nat),
     when (at_i 0) KellerSegel.init (steps KellerSegel.events (S n) (start s))
     = steps KellerSegel.events (S n) (start s)) /\
  (forall s s' : sim,
     N s = N s' -> mu s = mu s' -> drawn s = drawn s' ->
     C1 (KellerSegel.init s) = C1 (KellerSegel.init s') /\
     C2 (KellerSegel.init s) = C2 (KellerSegel.init s') /\
     kb (KellerSegel.init s) = kb (KellerSegel.init s')) /\
  (forall s : sim,
     kb (KellerSegel.init s)
     = sq (1 + KellerSegel.ka * sqrt (1 / KellerSegel.D)) * (1 + mu s) /\
     C1 (KellerSegel.init s) = replicate (N s * N s) KellerSegel.ka /\
     length (C2 (KellerSegel.init s)) = (N s * N s)%nat /\
     (forall j : nat,
        (j < N s * N s)%nat ->
        val (C2 (KellerSegel.init s)) j
        = kb (KellerSegel.init s) / KellerSegel.ka
          + frac 1 100 * noise (drawn s + j)) /\
     drawn (KellerSegel.init s) = (drawn s + N s * N s)%nat) /\
  (forall (fuel : nat) (s1 s2 : sim),
     KellerSegel.run fuel (set_mu (frac 4 100) configured) = Some s1 ->
     KellerSegel.run fuel (set_mu (frac 1 10) s1) = Some s2 ->
     freshly_initialised (frac 4 100) 0
       (KellerSegel.init (start (set_mu (frac 4 100) configured))) /\
     freshly_initialised (frac 1 10) (128 * 128)
       (KellerSegel.init (start (set_mu (frac 1 10) s1))) /\
     freshly_initialised (frac 98 100) (2 * (128 * 128))
       (KellerSegel.init (start (set_mu (frac 98 100) s2)))).
Proof.
  split; [exact main_is_three_runs|].
  split; [|split; [|split; [|split; [|split; [|split]]]]].
  - intros Hu fuel Hf. rewrite main_is_three_runs.
    rewrite (run_ends fuel _ Hu Hf).
    match goal with |- is_Some (Some ?x ≫= _) => generalize x end.
    intros s1. simpl. rewrite (run_ends fuel _ Hu Hf).
    match goal with |- is_Some (Some ?x ≫= _) => generalize x end.
    intros s2. simpl. rewrite (run_ends fuel _ Hu Hf). eexists; reflexivity.
  - intros fuel s. rewrite main_is_three_runs. intros Hm.
    destruct (KellerSegel.run fuel (set_mu (frac 4 100) configured))
      as [s1|] eqn:R1; [|discriminate]. cbn in Hm.
    destruct (KellerSegel.run fuel (set_mu (frac 1 10) s1))
      as [s2|] eqn:R2; [|discriminate]. cbn in Hm.
    apply run_Some in R1, R2, Hm.
    destruct R1 as (_ & G1 & D1 & F1), R2 as (_ & G2 & D2 & F2),
             Hm as (_ & G3 & D3 & F3).
    cbn [out set_mu mu drawn N L0] in G1, D1, F1, G2, D2, F2, G3, D3, F3.
    injection G1 as N1 _ _. injection G2 as N2 _ _.
    rewrite N2, N1 in D3. rewrite N1 in D2.
    split.
    + rewrite D3, D2, D1. reflexivity.
    + rewrite F3, F2, F1. reflexivity.
  - intros s. apply first_iteration.
  - intros s n. apply later_iterations.
  - intros s s'. apply init_overwrites.
  - intros s. apply init_assigns.
  - intros fuel s1 s2 R1 R2. apply run_Some in R1, R2.
    destruct R1 as (_ & G1 & D1 & _), R2 as (_ & G2 & D2 & _).
    cbn [set_mu mu drawn N L0] in G1, D1, G2, D2.
    injection G1 as N1 _ _. injection G2 as N2 _ _.
    rewrite N1 in N2, D2.
    change (N configured) with 128%nat in N1, D1, D2.
    change (drawn configured) with 0%nat in D1.
    split; [|split]; apply init_fresh; try reflexivity.
    + exact N1.
    + cbn [start set_clock set_mu drawn]. rewrite D1. reflexivity.
    + exact N2.
    + cbn [start set_clock set_mu drawn]. rewrite D2, D1. lia.
Qed.

Lemma quiet_unit_steps : @unit_steps quiet.
Proof. intros x. reflexivity. Qed.

(** With the framework [quiet], [main] returns, and the third cell of
    the first run starts at [C1 = ka], [C2 = kb/ka] (no noise). *)
Lemma three_runs_each_reinitialised_witness :
  @unit_steps quiet /\ is_Some (@KellerSegel.main quiet 3001) /\
  (3 < N configured * N configured)%nat /\
  val (C2 (@KellerSegel.init quiet (set_mu (frac 4 100) configured))) 3
  = kb (@KellerSegel.init quiet (set_mu (frac 4 100) configured))
    / KellerSegel.ka + frac 1 100 * 0.
Proof.
  split; [exact quiet_unit_steps|]. split.
  - apply (proj1 (proj2 (@three_runs_each_reinitialised quiet)));
      [exact quiet_unit_steps | lia].
  - assert (Hj : (3 < N configured * N configured)%nat)
      by (change (N configured) with 128%nat; lia).
    split; [exact Hj|].
    apply (proj1 (proj2 (proj2 (proj2
             (proj1 (proj2 (proj2 (proj2 (proj2 (proj2 (proj2
                (@three_runs_each_reinitialised quiet)))))))
                (set_mu (frac 4 100) configured)))))).
    exact Hj.
Defined.

(** ** C8: one grid for all runs *)

Section Grid.
Context `{Basilisk}.

Lemma events_grid (s : sim) : grid (KellerSegel.events s) = grid s.
Proof. destruct (events_frame s) as (F & _). unfold grid, frame in *. congruence. Qed.

Lemma step_grid (s : sim) : grid (step KellerSegel.events s) = grid s.
Proof. destruct (step_frame s) as (F & _). unfold grid. congruence. Qed.

Lemma during_main_grid (s : sim) :
  during_main s -> grid s = (128%nat, frac 64 1).
Proof.
  induction 1 as [|s Hs IH|s m Hs IH].
  - reflexivity.
  - now rewrite step_grid.
  - change (grid (KellerSegel.events s) = (128%nat, frac 64 1)).
    now rewrite events_grid.
Qed.

Lemma during_main_steps (n : nat) (s : sim) :
  during_main s -> during_main (steps KellerSegel.events n s).
Proof. intros Hs. induction n; [exact Hs|]. cbn [steps]. now apply dm_step. Qed.

Lemma steps_same_grid (n : nat) (s : sim) :
  grid (steps KellerSegel.events n (start s)) = grid s.
Proof.
  induction n as [|n IH]; [reflexivity|]. cbn [steps]. now rewrite step_grid.
Qed.

Lemma run_same_grid (fuel : nat) (s s' : sim) :
  KellerSegel.run fuel s = Some s' -> grid s' = grid s.
Proof.
  intros Hr. apply run_Some in Hr as ((n & ->) & _).
  now rewrite events_grid, steps_same_grid.
Qed.

End Grid.

(** C8.  [main] sets the resolution to 128 and the size of the domain to
    64 once, before the first run, and then makes its three runs from
    that state.  No event changes the grid: at every iteration of a run,
    before and after the events of the iteration, the grid is the one
    the run started with, and so is the grid of the state a run returns.
    Hence the three runs of [main] have the grid 128 x 128 over 64 x 64
    at every iteration, [init] fills fields of 128 x 128 cells in them,
    the state [main] returns has this grid, and with unit timesteps
    [main] does return. *)
Theorem grid_is_fixed `{Basilisk} :
  grid configured = (128%nat, frac 64 1) /\
  (forall fuel : nat,
     KellerSegel.main fuel
     = (s1 ← KellerSegel.run fuel (set_mu (frac 4 100) configured);
        s2 ← KellerSegel.run fuel (set_mu (frac 1 10) s1);
        KellerSegel.run fuel (set_mu (frac 98 100) s2))) /\
  (forall (s : sim) (n : nat),
     grid (steps KellerSegel.events n (start s)) = grid s /\
     grid (KellerSegel.events (steps KellerSegel.events n (start s)))
     = grid s) /\
  (forall (fuel : nat) (s s' : sim),
     KellerSegel.run fuel s = Some s' -> grid s' = grid s) /\
  (forall (fuel : nat) (s1 s2 : sim) (n : nat),
     KellerSegel.run fuel (set_mu (frac 4 100) configured) = Some s1 ->
     KellerSegel.run fuel (set_mu (frac 1 10) s1) = Some s2 ->
     grid (steps KellerSegel.events n (start (set_mu (frac 4 100) configured)))
     = (128%nat, frac 64 1) /\
     grid (steps KellerSegel.events n (start (set_mu (frac 1 10) s1)))
     = (128%nat, frac 64 1) /\
     grid (steps KellerSegel.events n (start (set_mu (frac 98 100) s2)))
     = (128%nat, frac 64 1)) /\
  (forall (fuel : nat) (s : sim),
     KellerSegel.main fuel = Some s -> grid s = (128%nat, frac 64 1)) /\
  (unit_steps ->
   forall fuel : nat,
     (3001 <= fuel)%nat ->
     exists s : sim,
       KellerSegel.main fuel = Some s /\ grid s = (128%nat, frac 64 1)) /\
  (forall s : sim,
     during_main s ->
     grid s = (128%nat, frac 64 1) /\
     grid (KellerSegel.events s) = (128%nat, frac 64 1) /\
     length (C1 (KellerSegel.init s)) = (128 * 128)%nat /\
     length (C2 (KellerSegel.init s)) = (128 * 128)%nat) /\
  (forall (fuel : nat) (s : sim),
     KellerSegel.main fuel = Some s ->
     exists s' : sim, during_main s' /\ s = KellerSegel.events s').
Proof.
  assert (Hmet : forall (fuel : nat) (s : sim),
            KellerSegel.main fuel = Some s ->
            exists s' : sim, during_main s' /\ s = KellerSegel.events s').
  { intros fuel s. rewrite main_is_three_runs. intros Hm.
    destruct (KellerSegel.run fuel (set_mu (frac 4 100) configured))
      as [s1|] eqn:R1; [|discriminate]. cbn in Hm.
    destruct (KellerSegel.run fuel (set_mu (frac 1 10) s1))
      as [s2|] eqn:R2; [|discriminate]. cbn in Hm.
    apply run_Some in R1, R2, Hm.
    destruct R1 as ((n1 & ->) & _), R2 as ((n2 & ->) & _),
             Hm as ((n3 & ->) & _).
    eexists. split; [|reflexivity].
    apply during_main_steps, dm_next, during_main_steps, dm_next,
      during_main_steps, dm_first. }
  assert (Hret : forall (fuel : nat) (s : sim),
            KellerSegel.main fuel = Some s -> grid s = (128%nat, frac 64 1)).
  { intros fuel s Hm. destruct (Hmet fuel s Hm) as (s' & Hs' & ->).
    rewrite events_grid. now apply during_main_grid. }
  split; [reflexivity|]. split; [exact main_is_three_runs|].
  split; [|split; [|split; [|split; [exact Hret|split; [|split]]]]].
  - intros s n. rewrite events_grid. split; apply steps_same_grid.
  - intros fuel s s' Hr. now apply run_same_grid in Hr.
  - intros fuel s1 s2 n R1 R2.
    apply run_same_grid in R1, R2. rewrite !steps_same_grid.
    change (grid (set_mu (frac 1 10) s1)) with (grid s1).
    change (grid (set_mu (frac 98 100) s2)) with (grid s2).
    rewrite R2.
    change (grid (set_mu (frac 1 10) s1)) with (grid s1).
    rewrite R1. repeat split.
  - intros Hu fuel Hf.
    assert (Hs : is_Some (KellerSegel.main fuel)).
    { rewrite main_is_three_runs.
      rewrite (run_ends fuel _ Hu Hf).
      match goal with |- is_Some (Some ?x ≫= _) => generalize x end.
      intros s1. simpl. rewrite (run_ends fuel _ Hu Hf).
      match goal with |- is_Some (Some ?x ≫= _) => generalize x end.
      intros s2. simpl. rewrite (run_ends fuel _ Hu Hf).
      eexists; reflexivity. }
    destruct Hs as [s Hm]. exists s. split; [exact Hm|]. now apply (Hret fuel).
  - intros s Hs. pose proof (during_main_grid s Hs) as G.
    split; [exact G|]. split; [|split].
    + now rewrite events_grid.
    + unfold KellerSegel.init. cbn. rewrite length_foreach. cbn.
      unfold grid in G. now replace (N s) with 128%nat by congruence.
    + unfold KellerSegel.init. cbn. rewrite length_foreach. cbn.
      unfold grid in G. now replace (N s) with 128%nat by congruence.
  - exact Hmet.
Qed.

(** With the framework [quiet], [main] returns, on the grid it has
    set. *)
Lemma grid_is_fixed_witness :
  @unit_steps quiet /\ (3001 <= 3001)%nat /\
  exists s : sim,
    @KellerSegel.main quiet 3001 = Some s /\ grid s = (128%nat, frac 64 1).
Proof.
  split; [exact quiet_unit_steps|]. split; [lia|].
  apply (proj1 (proj2 (proj2 (proj2 (proj2 (proj2 (proj2
           (@grid_is_fixed quiet))))))) quiet_unit_steps 3001%nat).
  lia.
Defined.

(** * Properties of the run scripts *)

(** ** C4: no argument *)

(** C4.  Called without an argument, [runCases.sh] and [cleanup.sh] end
    with exit status 1 after printing the usage line to the standard
    error stream; the files, the working directory and the log of
    external commands are as before: no command was run, so nothing was
    created, copied, compiled or removed. *)
Theorem no_argument_prints_usage `{Host} (a0 : string) (src : path) (w : world) :
  let i := Invocation a0 src [] in
  let after :=
    World (fs w) (cwd w)
          (stderr w ++ [("Usage: " ++ a0 ++ " <case-name>")%string]) (ran w) in
  runCases i w = (inr 1%nat, after) /\
  cleanup i w = (inr 1%nat, after) /\
  exit_status (runCases i w).1 <> 0%nat /\
  exit_status (cleanup i w).1 <> 0%nat /\
  newly_ran w (runCases i w).2 = [] /\
  newly_ran w (cleanup i w).2 = [].
Proof.
  cbn. unfold newly_ran. cbn. rewrite drop_all. repeat split; discriminate.
Qed.

(** ** Strict failure propagation *)

Section Strict.
Context `{Host}.

Lemma all_ok_app (l l' : list (command * nat * list string)) :
  all_ok l -> all_ok l' -> all_ok (l ++ l').
Proof. unfold all_ok. intros. now apply Forall_app. Qed.

Lemma strict_ret {A : Type} (a : A) : strict (mret a : sh A).
Proof.
  intros w. exists []. cbn. rewrite app_nil_r. split; [reflexivity|].
  left. constructor.
Qed.

Lemma strict_exit {A : Type} (n : nat) : strict (exit n : sh A).
Proof.
  intros w. exists []. cbn. rewrite app_nil_r. split; [reflexivity|].
  left. constructor.
Qed.

Lemma strict_echo_err (msg : string) : strict (echo_err msg).
Proof.
  intros w. exists []. cbn. rewrite app_nil_r. split; [reflexivity|].
  left. constructor.
Qed.

Lemma strict_simple (c : command) : strict (simple c).
Proof.
  intros w. unfold simple.
  exists [(c, status (perform c (fs w) (cwd w)),
           messages (perform c (fs w) (cwd w)))].
  destruct (status (perform c (fs w) (cwd w))) as [|k] eqn:Es; cbn.
  - split; [reflexivity|]. left. repeat constructor.
  - split; [reflexivity|]. right.
    exists [], c, (S k), (messages (perform c (fs w) (cwd w))).
    repeat split; [constructor | discriminate |].
    apply suffix_app_r. reflexivity.
Qed.

Lemma strict_bind {A B : Type} (m : sh A) (k : A -> sh B) :
  strict m -> (forall a, strict (k a)) -> strict (m ≫= k).
Proof.
  intros Hm Hk w. unfold mbind, sh_mbind, sh_bind.
  specialize (Hm w). destruct (m w) as [[a|st] w1]; cbn in Hm.
  - destruct Hm as (new1 & E1 & [Hok|(pre & c & st & msg & _ & _ & _ & Hr & _)]);
      [|discriminate Hr].
    destruct (Hk a w1) as (new2 & E2 & Hcase).
    exists (new1 ++ new2). rewrite E2, E1, app_assoc. split; [reflexivity|].
    destruct Hcase as [Hok2|(pre & c & st & msg & -> & Hpre & Hst & Hr & Hs)].
    + left. now apply all_ok_app.
    + right. exists (new1 ++ pre), c, st, msg.
      rewrite app_assoc. repeat split; try assumption. now apply all_ok_app.
  - destruct Hm as (new & E & Hcase). exists new. cbn. split; [exact E|].
    destruct Hcase as [Hok|(pre & c & st' & msg & -> & Hpre & Hst & Hr & Hs)].
    + now left.
    + right. exists pre, c, st', msg. injection Hr as ->.
      repeat split; assumption.
Qed.

Lemma strict_subshell (body : sh unit) : strict body -> strict (subshell body).
Proof.
  intros Hb w. unfold subshell. specialize (Hb w).
  destruct (body w) as [r w1]; cbn in Hb.
  destruct Hb as (new & E & Hcase). exists new.
  destruct Hcase as [Hok|(pre & c & st & msg & -> & Hpre & Hst & -> & Hs)].
  - destruct r as [|[|k]]; cbn; split; auto.
  - destruct st as [|k]; [congruence|]. cbn. split; [exact E|].
    right. exists pre, c, (S k), msg. repeat split; assumption.
Qed.

Lemma strict_cd_and_pwd (dir : path) : strict (cd_and_pwd dir).
Proof.
  intros w. unfold cd_and_pwd. pose proof (strict_simple (Cd dir) w) as Hs.
  destruct (simple (Cd dir) w) as [r w1]; cbn in Hs.
  destruct Hs as (new & E & Hcase). exists new.
  destruct Hcase as [Hok|(pre & c & st & msg & -> & Hpre & Hst & -> & Hs)].
  - destruct r; cbn; split; auto.
  - cbn. split; [exact E|].
    right. exists pre, c, st, msg. repeat split; assumption.
Qed.

Lemma strict_printed (r : nat * option path * list string) :
  strict (printed r).
Proof.
  intros w. exists []. cbn. rewrite app_nil_r. split; [reflexivity|].
  left. constructor.
Qed.

Lemma strict_cd_and_pwd_at (arg : option path) : strict (cd_and_pwd_at arg).
Proof.
  destruct arg as [dir|]; [apply strict_cd_and_pwd|].
  intros w. exists [(Cd (cwd w), 0%nat, [])]. cbn.
  split; [reflexivity|]. left. repeat constructor.
Qed.

Lemma strict_find_script_dir (tool : dirname_command) (i : invocation) :
  strict (find_script_dir tool i).
Proof.
  apply strict_bind; [apply strict_printed|].
  intros arg. apply strict_cd_and_pwd_at.
Qed.

Lemma strict_runCases_sh (tool : dirname_command) (i : invocation) :
  strict (runCases_sh tool i).
Proof.
  unfold runCases_sh. destruct (String.eqb (arg1 i) "").
  - apply strict_bind; [apply strict_echo_err | intros; apply strict_exit].
  - repeat first
      [ apply strict_simple | apply strict_find_script_dir
      | apply strict_cd_and_pwd
      | apply strict_subshell | apply strict_bind | intros ? ].
Qed.

Lemma strict_cleanup_sh (tool : dirname_command) (i : invocation) :
  strict (cleanup_sh tool i).
Proof.
  unfold cleanup_sh. destruct (String.eqb (arg1 i) "").
  - apply strict_bind; [apply strict_echo_err | intros; apply strict_exit].
  - repeat first
      [ apply strict_simple | apply strict_find_script_dir
      | apply strict_bind | intros ? ].
Qed.

Lemma strict_runCases (i : invocation) : strict (runCases i).
Proof. apply strict_runCases_sh. Qed.

Lemma strict_cleanup (i : invocation) : strict (cleanup i).
Proof. apply strict_cleanup_sh. Qed.

(** From strictness to the statement about any failing command. *)
Lemma strict_fails_fast (m : sh unit) (w : world)
    (pre post : list (command * nat * list string))
    (c : command) (st : nat) (msg : list string) :
  strict m ->
  newly_ran w (m w).2 = pre ++ (c, st, msg) :: post ->
  st <> 0%nat ->
  all_ok pre /\ post = [] /\ (m w).1 = inr st /\
  msg `suffix_of` stderr (m w).2.
Proof.
  intros Hm Hnew Hst. destruct (Hm w) as (new & E & Hcase).
  unfold newly_ran in Hnew. rewrite E, drop_app_length in Hnew. subst new.
  destruct Hcase as [Hok|(pre' & c' & st' & msg' & E' & Hpre & Hst' & Hr & Hs)].
  - exfalso. apply Forall_app in Hok as [_ Hok].
    apply Forall_cons in Hok as [Hok _]. cbn in Hok. contradiction.
  - assert (Hlen : post = [] /\ pre = pre' /\ (c, st, msg) = (c', st', msg')).
    { destruct post as [|e post] using rev_ind.
      - apply app_inj_tail in E' as [-> E']. auto.
      - exfalso. clear IHpost.
        change (pre ++ (c, st, msg) :: post ++ [e])
          with (pre ++ ((c, st, msg) :: post) ++ [e]) in E'.
        rewrite app_assoc in E'. apply app_inj_tail in E' as [<- _].
        apply Forall_app in Hpre as [_ Hpre].
        apply Forall_cons in Hpre as [Hpre _]. cbn in Hpre. contradiction. }
    destruct Hlen as (-> & -> & E0). injection E0 as -> -> ->. auto.
Qed.

End Strict.

(** ** C9: a failing command ends the script *)

(** C9.  In [runCases.sh] and in [cleanup.sh], under [set -e], and
    whatever the [dirname] of the system does: if a command of the
    script's own ([cd], [mkdir], [cp], [qcc], the compiled program,
    [rm]) ended with a status other than 0, then every command before it
    had succeeded, no command was run after it, the exit status of the
    script is the status of that command, and the messages of that
    command are the last lines on the standard error stream.  [dirname]
    is not such a command: it runs inside the argument of the first
    [cd], and what the scripts do does not depend on its exit status. *)
Theorem failing_command_ends_script `{Host}
    (tool : dirname_command) (i : invocation) (w : world)
    (pre post : list (command * nat * list string))
    (c : command) (st : nat) (msg : list string) :
  st <> 0%nat ->
  (newly_ran w (runCases_sh tool i w).2 = pre ++ (c, st, msg) :: post ->
   all_ok pre /\ post = [] /\ (runCases_sh tool i w).1 = inr st /\
   msg `suffix_of` stderr (runCases_sh tool i w).2) /\
  (newly_ran w (cleanup_sh tool i w).2 = pre ++ (c, st, msg) :: post ->
   all_ok pre /\ post = [] /\ (cleanup_sh tool i w).1 = inr st /\
   msg `suffix_of` stderr (cleanup_sh tool i w).2) /\
  (forall st' : nat,
     let tool' := fun p : path => (st', (tool p).1.2, (tool p).2) in
     runCases_sh tool' i w = runCases_sh tool i w /\
     cleanup_sh tool' i w = cleanup_sh tool i w).
Proof.
  intros Hst. split; [|split].
  - intros Hnew.
    now apply (strict_fails_fast (runCases_sh tool i) w pre post c st msg
                 (strict_runCases_sh tool i)).
  - intros Hnew.
    now apply (strict_fails_fast (cleanup_sh tool i) w pre post c st msg
                 (strict_cleanup_sh tool i)).
  - intros st'. split; reflexivity.
Qed.

(** With no case file in the checkout, [cp] fails and ends the build
    script with its status. *)
Lemma failing_command_ends_script_witness :
  1%nat <> 0%nat /\
  newly_ran (at_checkout bare_checkout)
    (@runCases_sh test_host gnu_dirname
       (call "runCases.sh" ["keller-segel"%string])
       (at_checkout bare_checkout)).2
  = [(Cd ["repo"; "simulationCases"]%string, 0%nat, []);
     (Cd ["repo"; "simulationCases"; ".."]%string, 0%nat, []);
     (Mkdir_p ["repo"; "simulationCases"; "keller-segel"]%string, 0%nat, [])]
    ++ (Cp ["repo"; "simulationCases"; "keller-segel.c"]%string
           ["repo"; "simulationCases"; "keller-segel"]%string,
        1%nat, ["cp: cannot copy"%string]) :: [] /\
  (@runCases_sh test_host gnu_dirname
     (call "runCases.sh" ["keller-segel"%string])
     (at_checkout bare_checkout)).1 = inr 1%nat.
Proof.
  assert (Hnew : newly_ran (at_checkout bare_checkout)
    (@runCases_sh test_host gnu_dirname
       (call "runCases.sh" ["keller-segel"%string])
       (at_checkout bare_checkout)).2
  = [(Cd ["repo"; "simulationCases"]%string, 0%nat, []);
     (Cd ["repo"; "simulationCases"; ".."]%string, 0%nat, []);
     (Mkdir_p ["repo"; "simulationCases"; "keller-segel"]%string, 0%nat, [])]
    ++ (Cp ["repo"; "simulationCases"; "keller-segel.c"]%string
           ["repo"; "simulationCases"; "keller-segel"]%string,
        1%nat, ["cp: cannot copy"%string]) :: [])
    by (vm_compute; reflexivity).
  split; [discriminate|]. split; [exact Hnew|].
  exact (proj1 (proj2 (proj2
    (proj1 (@failing_command_ends_script test_host gnu_dirname _ _ _ _ _ _ _
              (fun E : 1%nat = 0%nat => O_S 0 (eq_sym E))) Hnew)))).
Defined.

(** A failing [dirname] does not end the scripts.  On a system whose
    [dirname] fails (status 1, nothing printed, one message),
    [runCases.sh], called in the directory of the scripts, prints the
    message of [dirname], goes on with the working directory as the
    directory of the script, runs its eight commands, each with status
    0, and ends with status 0; and [cleanup.sh], called in the root of
    the repository, runs [rm -rf] on the path of that name in the
    working directory and ends with status 0. *)
Lemma failing_dirname_does_not_end_script :
  let i := call "runCases.sh" ["keller-segel"%string] in
  let i' := call "cleanup.sh" ["keller-segel"%string] in
  let w := World (checkout "int main(){}")
                 ["repo"; "simulationCases"]%string [] [] in
  let r := @runCases_sh test_host broken_dirname i w in
  let r' := @cleanup_sh test_host broken_dirname i'
              (at_checkout (checkout "int main(){}")) in
  (broken_dirname (bash_source i)).1.1 = 1%nat /\
  exit_status r.1 = 0%nat /\
  map (fun e => e.1.2) (newly_ran w r.2)
  = [0; 0; 0; 0; 0; 0; 0; 0]%nat /\
  commands (newly_ran w r.2)
  = [Cd ["repo"; "simulationCases"]%string;
     Cd ["repo"; "simulationCases"; ".."]%string;
     Mkdir_p ["repo"; "simulationCases"; "keller-segel"]%string;
     Cp ["repo"; "simulationCases"; "keller-segel.c"]%string
        ["repo"; "simulationCases"; "keller-segel"]%string;
     Cd ["repo"%string];
     Qcc ["repo"; "src-local"]%string
         ["repo"; "simulationCases"; "keller-segel.c"]%string
         ["repo"; "simulationCases"; "keller-segel"; "keller-segel"]%string;
     Cd ["repo"; "simulationCases"; "keller-segel"]%string;
     Exec "keller-segel"] /\
  stderr r.2 = ["dirname: invalid option"%string] /\
  exit_status r'.1 = 0%nat /\
  commands (newly_ran (at_checkout (checkout "int main(){}")) r'.2)
  = [Cd ["repo"%string]; Rm_rf ["repo"; "keller-segel"]%string].
Proof. vm_compute. repeat split. Qed.

(** The compiler and the compiled program fail the same way: with an
    empty source [qcc] ends the script with status 1 before anything is
    run, and a program that exits with 3 ends it with status 3. *)
Example qcc_failure_ends_build :
  let r := @runCases test_host (call "runCases.sh" ["keller-segel"%string])
             (at_checkout (checkout "")) in
  r.1 = inr 1%nat /\ length (newly_ran (at_checkout (checkout "")) r.2) = 6%nat /\
  stderr r.2 = ["qcc: compilation failed"%string].
Proof. vm_compute. repeat split. Qed.

Example program_failure_ends_build :
  let r := @runCases test_host (call "runCases.sh" ["keller-segel"%string])
             (at_checkout (checkout "crash")) in
  r.1 = inr 3%nat /\ length (newly_ran (at_checkout (checkout "crash")) r.2) = 8%nat /\
  stderr r.2 = ["Segmentation fault"%string].
Proof. vm_compute. repeat split. Qed.

(** ** Paths *)

Section Paths.

Lemma enter_plain (p : path) (c : string) : plain c -> enter p c = p ++ [c].
Proof.
  intros [H1 H2]. unfold enter.
  destruct (String.eqb_spec c ".."); [contradiction|].
  destruct (String.eqb_spec c "."); [contradiction|]. reflexivity.
Qed.

Lemma Forall_removelast {A : Type} (P : A -> Prop) (l : list A) :
  Forall P l -> Forall P (removelast l).
Proof.
  induction 1 as [|x l Hx Hl IH]; [constructor|].
  simpl. destruct l; [constructor|]. constructor; assumption.
Qed.

Lemma enter_keeps_plain (p : path) (c : string) :
  Forall plain p -> Forall plain (enter p c).
Proof.
  intros Hp. unfold enter.
  destruct (String.eqb_spec c ".."); [now apply Forall_removelast|].
  destruct (String.eqb_spec c "."); [assumption|].
  apply Forall_app. split; [assumption|]. repeat constructor; assumption.
Qed.

Lemma foldl_enter_plain (acc p : path) :
  Forall plain acc -> Forall plain (foldl enter acc p).
Proof.
  revert acc. induction p as [|c p IH]; intros acc Hacc; [assumption|].
  simpl. apply IH. now apply enter_keeps_plain.
Qed.

Lemma resolve_plain (p : path) : Forall plain (resolve p).
Proof. apply foldl_enter_plain. constructor. Qed.

Lemma foldl_enter_id (acc p : path) :
  Forall plain p -> foldl enter acc p = acc ++ p.
Proof.
  revert acc. induction p as [|c p IH]; intros acc Hp; simpl.
  - now rewrite app_nil_r.
  - apply Forall_cons in Hp as [Hc Hp].
    rewrite IH, enter_plain by assumption. now rewrite <- app_assoc.
Qed.

Lemma resolve_id (p : path) : Forall plain p -> resolve p = p.
Proof. intros Hp. unfold resolve. now rewrite foldl_enter_id. Qed.

Lemma resolve_resolve (p : path) : resolve (resolve p) = resolve p.
Proof. apply resolve_id, resolve_plain. Qed.

Lemma valid_case_name_plain (n : string) :
  valid_case_name n = true -> plain n /\ n <> ""%string.
Proof.
  unfold valid_case_name. rewrite !andb_true_iff, !negb_true_iff.
  intros (((H1 & H2) & H3) & _).
  apply String.eqb_neq in H1, H2, H3. repeat split; assumption.
Qed.

Lemma resolve_case_dir (i : invocation) (n : string) :
  valid_case_name n = true -> resolve (case_dir i n) = case_dir i n.
Proof.
  intros Hn. apply resolve_id. unfold case_dir, script_dir.
  apply Forall_app. split; [apply resolve_plain|].
  repeat constructor; now apply valid_case_name_plain.
Qed.

End Paths.

(** ** The order of the commands *)

Section Order.
Context `{Host}.

Lemma follows_simple (c : command) : follows [c] (simple c).
Proof.
  intros w. unfold simple.
  exists [(c, status (perform c (fs w) (cwd w)),
           messages (perform c (fs w) (cwd w)))].
  destruct (status (perform c (fs w) (cwd w))); cbn;
    (split; [reflexivity|]); [reflexivity | split; [reflexivity|discriminate]].
Qed.

Lemma cd_and_pwd_value (dir : path) (w : world) (p : path) :
  (cd_and_pwd dir w).1 = inl p -> p = resolve dir.
Proof.
  unfold cd_and_pwd, simple. cbn.
  destruct (is_dir (fs w) (resolve dir)); cbn; congruence.
Qed.

Lemma follows_cd_and_pwd (dir : path) : follows [Cd dir] (cd_and_pwd dir).
Proof.
  intros w. unfold cd_and_pwd. pose proof (follows_simple (Cd dir) w) as Hs.
  destruct (simple (Cd dir) w) as [[u|st] w1]; cbn in *; exact Hs.
Qed.

(** Where [dirname] works, the line that finds the directory of the
    script is [cd] to what [dirname] gives, and [pwd]. *)
Lemma find_gnu (i : invocation) (w : world) :
  find_script_dir gnu_dirname i w = cd_and_pwd (dirname (bash_source i)) w.
Proof.
  unfold find_script_dir, mbind, sh_mbind, sh_bind, printed, gnu_dirname.
  cbn. rewrite app_nil_r. destruct w; reflexivity.
Qed.

Lemma follows_find_gnu (i : invocation) :
  follows [Cd (dirname (bash_source i))] (find_script_dir gnu_dirname i).
Proof. intros w. rewrite find_gnu. apply follows_cd_and_pwd. Qed.

Lemma find_gnu_value (i : invocation) (w : world) (p : path) :
  (find_script_dir gnu_dirname i w).1 = inl p -> p = script_dir i.
Proof. rewrite find_gnu. apply cd_and_pwd_value. Qed.

Lemma follows_bind_value {A B : Type} (p1 p2 : list command)
    (m : sh A) (k : A -> sh B) (a0 : A) :
  follows p1 m ->
  (forall w a, (m w).1 = inl a -> a = a0) ->
  follows p2 (k a0) ->
  follows (p1 ++ p2) (m ≫= k).
Proof.
  intros Hm Hval Hk w. unfold mbind, sh_mbind, sh_bind.
  specialize (Hm w). specialize (Hval w).
  destruct (m w) as [[a|st] w1]; cbn in Hm, Hval.
  - rewrite (Hval a eq_refl). destruct Hm as (new1 & E1 & C1).
    destruct (Hk w1) as (new2 & E2 & C2).
    exists (new1 ++ new2). rewrite E2, E1, app_assoc. split; [reflexivity|].
    unfold commands in *. rewrite map_app, C1.
    destruct ((k a0 w1).1); [now rewrite C2|].
    destruct C2 as [C2 Hst]. split; [now apply prefix_app|exact Hst].
  - destruct Hm as (new1 & E1 & C1 & Hst). exists new1. cbn.
    split; [exact E1|]. split; [now apply prefix_app_r|exact Hst].
Qed.

Lemma follows_bind {A B : Type} (p1 p2 : list command)
    (m : sh A) (k : A -> sh B) :
  follows p1 m -> (forall a, follows p2 (k a)) ->
  follows (p1 ++ p2) (m ≫= k).
Proof.
  intros Hm Hk w. unfold mbind, sh_mbind, sh_bind.
  specialize (Hm w).
  destruct (m w) as [[a|st] w1]; cbn in Hm.
  - destruct Hm as (new1 & E1 & C1).
    destruct (Hk a w1) as (new2 & E2 & C2).
    exists (new1 ++ new2). rewrite E2, E1, app_assoc. split; [reflexivity|].
    unfold commands in *. rewrite map_app, C1.
    destruct ((k a w1).1); [now rewrite C2|].
    destruct C2 as [C2 Hst]. split; [now apply prefix_app|exact Hst].
  - destruct Hm as (new1 & E1 & C1 & Hst). exists new1. cbn.
    split; [exact E1|]. split; [now apply prefix_app_r|exact Hst].
Qed.

Lemma follows_subshell (p : list command) (body : sh unit) :
  follows p body -> follows p (subshell body).
Proof.
  intros Hb w. unfold subshell. specialize (Hb w).
  destruct (body w) as [[u|[|k]] w1]; cbn in *.
  - exact Hb.
  - destruct Hb as (new & _ & _ & Hst). contradiction.
  - exact Hb.
Qed.

Lemma arg1_cons (i : invocation) (n : string) (rest : list string) :
  argv i = n :: rest -> arg1 i = n.
Proof. unfold arg1. now intros ->. Qed.

Lemma runCases_follows (i : invocation) (n : string) (rest : list string) :
  argv i = n :: rest -> n <> ""%string ->
  follows (build_plan i n) (runCases i).
Proof.
  intros Ha Hn. unfold runCases, runCases_sh. rewrite (arg1_cons i n rest Ha).
  destruct (String.eqb_spec n ""); [contradiction|].
  unfold build_plan.
  apply (follows_bind_value [_] _ _ _ (script_dir i));
    [apply follows_find_gnu | intros w a; apply find_gnu_value |].
  apply (follows_bind_value [_] _ _ _ (repo_root i));
    [apply follows_cd_and_pwd | intros w a; apply cd_and_pwd_value |].
  apply (follows_bind [_]); [apply follows_simple | intros _].
  apply (follows_bind [_]); [apply follows_simple | intros _].
  apply (follows_bind [_; _]).
  - apply follows_subshell.
    apply (follows_bind [_]); [apply follows_simple | intros _].
    apply follows_simple.
  - intros _. apply follows_subshell.
    apply (follows_bind [_]); [apply follows_simple | intros _].
    apply follows_simple.
Qed.

End Order.

(** ** Running the scripts step by step *)

Section Inversion.
Context `{Host}.

Lemma bind_inl {A B : Type} (m : sh A) (k : A -> sh B)
    (w w2 : world) (b : B) :
  (m ≫= k) w = (inl b, w2) ->
  exists a w1, m w = (inl a, w1) /\ k a w1 = (inl b, w2).
Proof.
  unfold mbind, sh_mbind, sh_bind.
  destruct (m w) as [[a|st] w1]; [eauto|discriminate].
Qed.

Lemma bind_inr {A B : Type} (m : sh A) (k : A -> sh B)
    (w w2 : world) (st : nat) :
  (m ≫= k) w = (inr st, w2) ->
  m w = (inr st, w2) \/ exists a w1, m w = (inl a, w1) /\ k a w1 = (inr st, w2).
Proof.
  unfold mbind, sh_mbind, sh_bind.
  destruct (m w) as [[a|st'] w1]; [eauto|]. intros E. left.
  injection E as -> ->. reflexivity.
Qed.

Lemma simple_inl (c : command) (w w' : world) (u : unit) :
  simple c w = (inl u, w') ->
  status (perform c (fs w) (cwd w)) = 0%nat /\
  fs w' = files (perform c (fs w) (cwd w)) /\
  cwd w' = dir_after (perform c (fs w) (cwd w)) /\
  messages (perform c (fs w) (cwd w)) `suffix_of` stderr w'.
Proof.
  unfold simple. destruct (status (perform c (fs w) (cwd w))); [|discriminate].
  intros E. injection E as _ <-. repeat split. cbn.
  apply suffix_app_r. reflexivity.
Qed.

Lemma simple_inr (c : command) (w w' : world) (st : nat) :
  simple c w = (inr st, w') -> st <> 0%nat.
Proof.
  unfold simple. destruct (status (perform c (fs w) (cwd w))); [discriminate|].
  intros E. injection E as <- _. discriminate.
Qed.

Lemma cd_and_pwd_inl (dir : path) (w w' : world) (p : path) :
  cd_and_pwd dir w = (inl p, w') ->
  is_dir (fs w) (resolve dir) = true /\ p = resolve dir /\
  fs w' = fs w /\ cwd w' = cwd w.
Proof.
  unfold cd_and_pwd, simple. cbn.
  destruct (is_dir (fs w) (resolve dir)); cbn; [|discriminate].
  intros E. injection E as <- <-. repeat split.
Qed.

(** A subshell whose body is two commands. *)
Lemma subshell_two_inl (c1 c2 : command) (w w' : world) (u : unit) :
  subshell (simple c1;; simple c2) w = (inl u, w') ->
  exists w1 w2 : world,
    simple c1 w = (inl tt, w1) /\ simple c2 w1 = (inl tt, w2) /\
    fs w' = fs w2 /\ cwd w' = cwd w.
Proof.
  unfold subshell.
  destruct ((simple c1;; simple c2) w) as [[[]|[|k]] w2] eqn:E; [| |discriminate].
  - intros E'. injection E' as _ <-.
    apply bind_inl in E as ([] & w1 & E1 & E2). exists w1, w2. repeat split; assumption.
  - exfalso. apply bind_inr in E as [E|(a & w1 & _ & E)];
      now apply simple_inr in E.
Qed.

Lemma perform_cd (dir : path) (f : gmap path node) (d : path) :
  status (perform (Cd dir) f d) = 0%nat ->
  is_dir f (resolve dir) = true /\
  files (perform (Cd dir) f d) = f /\
  dir_after (perform (Cd dir) f d) = resolve dir.
Proof. cbn. destruct (is_dir f (resolve dir)); cbn; [auto|discriminate]. Qed.

Lemma perform_mkdir_p (dir : path) (f : gmap path node) (d : path) :
  status (perform (Mkdir_p dir) f d) = 0%nat ->
  files (perform (Mkdir_p dir) f d) = mkdir_p f dir /\
  dir_after (perform (Mkdir_p dir) f d) = d.
Proof. cbn. destruct (blocked f dir); cbn; [discriminate|auto]. Qed.

Lemma perform_cp (src dir : path) (f : gmap path node) (d : path) :
  status (perform (Cp src dir) f d) = 0%nat ->
  exists c : string,
    f !! src = Some (File c) /\
    files (perform (Cp src dir) f d) = <[dir ++ [basename src] := File c]> f /\
    dir_after (perform (Cp src dir) f d) = d.
Proof.
  cbn. unfold cp. destruct (f !! src) as [[c|]|]; cbn; try discriminate.
  destruct (is_dir f dir && negb (is_dir f (dir ++ [basename src])));
    cbn; [eauto|discriminate].
Qed.

Lemma perform_qcc (incl src out : path) (f : gmap path node) (d : path) :
  status (perform (Qcc incl src out) f d) = 0%nat ->
  exists (bin : string) (warnings : list string),
    qcc_compile f d incl src out = Compiled bin warnings /\
    files (perform (Qcc incl src out) f d) = <[out := File bin]> f /\
    dir_after (perform (Qcc incl src out) f d) = d.
Proof.
  cbn. unfold qcc.
  destruct (qcc_compile f d incl src out) as [bin ws|st msgs u] eqn:Eb;
    cbn; [|discriminate].
  intros _. exists bin, ws. repeat split.
Qed.

Lemma perform_exec (prog : string) (f : gmap path node) (d : path) :
  status (perform (Exec prog) f d) = 0%nat ->
  exists bin : string,
    f !! (d ++ [prog]) = Some (File bin) /\
    execute bin d f
    = (0%nat, files (perform (Exec prog) f d),
       messages (perform (Exec prog) f d)).
Proof.
  cbn. destruct (f !! (d ++ [prog])) as [[bin|]|]; cbn; try discriminate.
  destruct (execute bin d f) as [[st f'] msgs] eqn:E. cbn.
  intros ->. eauto.
Qed.

Lemma is_dir_lookup (f : gmap path node) (p : path) :
  p <> [] -> is_dir f p = true -> f !! p = Some Dir.
Proof.
  unfold is_dir. destruct p; [congruence|]. intros _.
  destruct (f !! _) as [[|]|]; congruence.
Qed.

Lemma mkdir_p_file (f : gmap path node) (dir p : path) (c : string) :
  mkdir_p f dir !! p = Some (File c) -> f !! p = Some (File c).
Proof.
  unfold mkdir_p. intros E. apply lookup_union_Some_raw in E as [E|[_ E]].
  - exact E.
  - apply lookup_gset_to_gmap_Some in E as [_ E]. discriminate.
Qed.

Lemma simple_cd_inl (dir : path) (w w' : world) (u : unit) :
  simple (Cd dir) w = (inl u, w') ->
  is_dir (fs w) (resolve dir) = true /\ fs w' = fs w /\
  cwd w' = resolve dir.
Proof.
  intros E. apply simple_inl in E as (S & -> & -> & _).
  apply perform_cd in S as (D & -> & ->). auto.
Qed.

Lemma simple_mkdir_p_inl (dir : path) (w w' : world) (u : unit) :
  simple (Mkdir_p dir) w = (inl u, w') ->
  fs w' = mkdir_p (fs w) dir /\ cwd w' = cwd w.
Proof.
  intros E. apply simple_inl in E as (S & -> & -> & _).
  now apply perform_mkdir_p in S as (-> & ->).
Qed.

Lemma simple_cp_inl (src dir : path) (w w' : world) (u : unit) :
  simple (Cp src dir) w = (inl u, w') ->
  exists c : string,
    fs w !! src = Some (File c) /\
    fs w' = <[dir ++ [basename src] := File c]> (fs w) /\ cwd w' = cwd w.
Proof.
  intros E. apply simple_inl in E as (S & -> & -> & _).
  apply perform_cp in S as (c & L & -> & ->). eauto.
Qed.

Lemma simple_qcc_inl (incl src out : path) (w w' : world) (u : unit) :
  simple (Qcc incl src out) w = (inl u, w') ->
  exists (bin : string) (warnings : list string),
    qcc_compile (fs w) (cwd w) incl src out = Compiled bin warnings /\
    fs w' = <[out := File bin]> (fs w) /\ cwd w' = cwd w.
Proof.
  intros E. apply simple_inl in E as (S & -> & -> & _).
  apply perform_qcc in S as (bin & ws & Q & -> & ->).
  exists bin, ws. auto.
Qed.

Lemma simple_exec_inl (prog : string) (w w' : world) (u : unit) :
  simple (Exec prog) w = (inl u, w') ->
  exists (bin : string) (msgs : list string),
    fs w !! (cwd w ++ [prog]) = Some (File bin) /\
    execute bin (cwd w) (fs w) = (0%nat, fs w', msgs).
Proof.
  intros E. apply simple_inl in E as (S & -> & _ & _).
  apply perform_exec in S as (bin & L & X). eauto.
Qed.

Lemma length_append (a b : string) :
  String.length (a +:+ b) = (String.length a + String.length b)%nat.
Proof. induction a as [|x a IH]; simpl; [reflexivity|now f_equal]. Qed.

Lemma name_c_differs (n : string) : (n +:+ ".c")%string <> n.
Proof.
  intros E. apply (f_equal String.length) in E.
  rewrite length_append in E. cbn in E. lia.
Qed.

Lemma all_ok_statuses (l : list (command * nat * list string)) :
  all_ok l ->
  map (fun e => (e.1.1, e.1.2)) l = map (fun c => (c, 0%nat)) (commands l).
Proof.
  induction 1 as [|[[c st] msg] l Hst Hl IH]; [reflexivity|].
  cbn in *. subst st. now rewrite IH.
Qed.

End Inversion.

Section Build.
Context `{Host}.

Lemma basename_snoc (p : path) (c : string) : basename (p ++ [c]) = c.
Proof. unfold basename. apply last_last. Qed.

Lemma snoc_differs (p : path) (a b : string) : a <> b -> p ++ [a] <> p ++ [b].
Proof. intros Hab E. apply app_inv_head in E. congruence. Qed.

Lemma snoc_longer (p : path) (a b : string) : p ++ [a] <> (p ++ [b]) ++ [a].
Proof.
  intros E. apply (f_equal length) in E. rewrite !length_app in E.
  cbn in E. lia.
Qed.

(** The run of [runCases.sh] that goes through to the end. *)
Lemma runCases_success (i : invocation) (n : string) (rest : list string)
    (w w' : world) :
  argv i = n :: rest -> valid_case_name n = true ->
  runCases i w = (inl tt, w') ->
  exists (c bin : string) (warnings : list string)
         (f2 f3 : gmap path node) (msgs : list string),
    fs w !! case_source i n = Some (File c) /\
    f2 !! case_source i n = Some (File c) /\
    qcc_compile f2 (repo_root i) (repo_root i ++ ["src-local"%string])
      (case_source i n) (case_dir i n ++ [n])
    = Compiled bin warnings /\
    f3 !! case_dir i n = Some Dir /\
    f3 !! (case_dir i n ++ [(n +:+ ".c")%string]) = Some (File c) /\
    f3 !! (case_dir i n ++ [n]) = Some (File bin) /\
    execute bin (case_dir i n) f3 = (0%nat, fs w', msgs).
Proof.
  intros Ha Hn E. destruct (valid_case_name_plain n Hn) as [Hp Hne].
  unfold runCases, runCases_sh in E. rewrite (arg1_cons i n rest Ha) in E.
  destruct (String.eqb_spec n ""); [contradiction|].
  apply bind_inl in E as (sd & w1 & E1 & E).
  rewrite find_gnu in E1.
  apply cd_and_pwd_inl in E1 as (D1 & -> & F1 & C1).
  apply bind_inl in E as (root & w2 & E2 & E).
  apply cd_and_pwd_inl in E2 as (D2 & -> & F2 & C2).
  fold (script_dir i) in *. fold (repo_root i) in *.
  fold (case_dir i n) in *. fold (case_source i n) in *.
  apply bind_inl in E as ([] & w3 & E3 & E).
  apply simple_mkdir_p_inl in E3 as (F3 & C3).
  apply bind_inl in E as ([] & w4 & E4 & E).
  apply simple_cp_inl in E4 as (c & Lc & F4 & C4).
  apply bind_inl in E as ([] & w5 & E5 & E).
  apply subshell_two_inl in E5 as (w5a & w5b & Ea & Eb & F5 & C5).
  apply simple_cd_inl in Ea as (Da & Fa & Ca).
  apply simple_qcc_inl in Eb as (bin & ws & Q & Fq & Cq).
  apply subshell_two_inl in E as (w6a & w6b & Ea' & Eb' & F6 & C6).
  apply simple_cd_inl in Ea' as (Da' & Fa' & Ca').
  apply simple_exec_inl in Eb' as (bin' & msgs & Lb & X).
  rewrite resolve_case_dir in * by exact Hn.
  unfold repo_root in Ca. rewrite resolve_resolve in Ca. fold (repo_root i) in Ca.
  unfold case_source in F4. rewrite basename_snoc in F4.
  fold (case_source i n) in F4.
  assert (Hsrc : fs w3 !! case_source i n = Some (File c)) by exact Lc.
  assert (Hsrc' : fs w5a !! case_source i n = Some (File c)).
  { rewrite Fa, F4, lookup_insert_ne
      by (unfold case_source, case_dir; apply not_eq_sym, snoc_longer).
    exact Hsrc. }
  assert (Hf5 : fs w5 = <[case_dir i n ++ [n] := File bin]> (fs w4))
    by (now rewrite F5, Fq, Fa).
  assert (Hexe : fs w5 !! (case_dir i n ++ [n]) = Some (File bin))
    by (rewrite Hf5; apply lookup_insert_eq).
  rewrite Ca', Fa' in Lb. rewrite Lb in Hexe. injection Hexe as ->.
  exists c, bin, ws, (fs w5a), (fs w5), msgs. repeat split.
  - rewrite F3, F2, F1 in Hsrc. now apply mkdir_p_file in Hsrc.
  - exact Hsrc'.
  - rewrite Ca in Q. exact Q.
  - apply is_dir_lookup; [|exact Da'].
    unfold case_dir. intros E0. now apply app_eq_nil in E0 as [_ E0].
  - rewrite Hf5, lookup_insert_ne
      by (unfold case_dir; apply snoc_differs, not_eq_sym, name_c_differs).
    rewrite F4. apply lookup_insert_eq.
  - exact Lb.
  - rewrite Ca', Fa', <- F6 in X. exact X.
Qed.

End Build.

(** ** C5: the build script *)

(** C5.  [runCases.sh <n>] with a case name [n]: the commands it runs
    are, in this order, the two [cd] that find the directory of the
    script and the root of the repository, [mkdir -p] of the output
    directory [simulationCases/<n>], [cp] of [<n>.c] into it, [qcc] (run
    in the root of the repository) with the executable
    [simulationCases/<n>/<n>] as output, and the executable, run in the
    output directory; a run that fails has run a beginning of this list.
    When the script ends with status 0, every one of these commands was
    run and ended with status 0, and the program was started on a file
    system in which the output directory exists and holds the copy of
    the source and the executable [qcc] has built from it; these two
    files are there at the end as well if the program has left them
    alone. *)
Theorem build_copies_compiles_runs `{Host}
    (i : invocation) (n : string) (rest : list string) (w : world) :
  argv i = n :: rest -> valid_case_name n = true ->
  commands (newly_ran w (runCases i w).2) `prefix_of` build_plan i n /\
  (exit_status (runCases i w).1 = 0%nat ->
   map (fun e => (e.1.1, e.1.2)) (newly_ran w (runCases i w).2)
   = map (fun c => (c, 0%nat)) (build_plan i n) /\
   exists (c bin : string) (warnings : list string)
          (f2 f3 : gmap path node) (msgs : list string),
     fs w !! case_source i n = Some (File c) /\
     f2 !! case_source i n = Some (File c) /\
     qcc_compile f2 (repo_root i) (repo_root i ++ ["src-local"%string])
       (case_source i n) (case_dir i n ++ [n])
     = Compiled bin warnings /\
     f3 !! case_dir i n = Some Dir /\
     f3 !! (case_dir i n ++ [(n +:+ ".c")%string]) = Some (File c) /\
     f3 !! (case_dir i n ++ [n]) = Some (File bin) /\
     execute bin (case_dir i n) f3 = (0%nat, fs (runCases i w).2, msgs) /\
     ((forall p : path,
         p ∈ [case_dir i n ++ [(n +:+ ".c")%string]; case_dir i n ++ [n]] ->
         fs (runCases i w).2 !! p = f3 !! p) ->
      fs (runCases i w).2 !! (case_dir i n ++ [(n +:+ ".c")%string])
      = Some (File c) /\
      fs (runCases i w).2 !! (case_dir i n ++ [n]) = Some (File bin))).
Proof.
  intros Ha Hn. destruct (valid_case_name_plain n Hn) as [_ Hne].
  destruct (runCases_follows i n rest Ha Hne w) as (new & E & Hplan).
  destruct (strict_runCases i w) as (new' & E' & Hstrict).
  rewrite E in E'. apply app_inv_head in E'. subst new'.
  unfold newly_ran. rewrite E, drop_app_length.
  split.
  - destruct ((runCases i w).1); [now rewrite Hplan | apply Hplan].
  - intros Hexit.
    destruct (runCases i w) as [[[]|st] w'] eqn:Erun; cbn in *;
      [|subst st; now destruct Hplan].
    split.
    + destruct Hstrict as [Hok|(pre & c & st & msg & _ & _ & _ & Hr & _)];
        [|discriminate Hr].
      now rewrite all_ok_statuses, Hplan.
    + destruct (runCases_success i n rest w w' Ha Hn Erun)
        as (c & bin & ws & f2 & f3 & msgs
            & H1 & H1' & H2 & H3 & H4 & H5 & H6).
      exists c, bin, ws, f2, f3, msgs.
      do 7 (split; [assumption|]). intros Hkeep. split.
      * rewrite <- H4. apply Hkeep. apply elem_of_cons. now left.
      * rewrite <- H5. apply Hkeep. apply elem_of_cons. right.
        apply elem_of_cons. now left.
Qed.

Lemma build_copies_compiles_runs_witness :
  let i := call "runCases.sh" ["keller-segel"%string] in
  let w := at_checkout (checkout "int main(){}") in
  argv i = ["keller-segel"%string] /\
  valid_case_name "keller-segel" = true /\
  exit_status (@runCases test_host i w).1 = 0%nat /\
  map (fun e => (e.1.1, e.1.2)) (newly_ran w (@runCases test_host i w).2)
  = map (fun c => (c, 0%nat)) (build_plan i "keller-segel").
Proof.
  cbv zeta. split; [reflexivity|]. split; [reflexivity|].
  split; [vm_compute; reflexivity|].
  apply (proj2 (@build_copies_compiles_runs test_host
                  (call "runCases.sh" ["keller-segel"%string])
                  "keller-segel" [] (at_checkout (checkout "int main(){}"))
                  eq_refl eq_refl)).
  vm_compute. reflexivity.
Defined.

(** ** C6: the cleanup script *)

Section Cleanup.
Context `{Host}.

Lemma rm_rf_below (f : gmap path node) (p q : path) :
  p `prefix_of` q -> rm_rf f p !! q = None.
Proof.
  intros Hpq. unfold rm_rf. apply map_lookup_filter_None_2. right.
  intros x _ Hn. cbn in Hn. contradiction.
Qed.

Lemma rm_rf_elsewhere (f : gmap path node) (p q : path) :
  ~ p `prefix_of` q -> rm_rf f p !! q = f !! q.
Proof.
  intros Hpq. unfold rm_rf. destruct (f !! q) as [x|] eqn:E.
  - apply map_lookup_filter_Some_2; [exact E|exact Hpq].
  - apply map_lookup_filter_None_2. now left.
Qed.

Lemma rm_rf_twice (f : gmap path node) (p : path) :
  rm_rf (rm_rf f p) p = rm_rf f p.
Proof.
  unfold rm_rf at 1. apply map_filter_id. intros q x Hq.
  unfold rm_rf in Hq. apply map_lookup_filter_Some in Hq as [_ Hq]. exact Hq.
Qed.

Lemma is_dir_rm_rf (f : gmap path node) (p : path) (c : string) :
  is_dir (rm_rf f (p ++ [c])) p = is_dir f p.
Proof.
  unfold is_dir. destruct p as [|a p]; [reflexivity|].
  rewrite rm_rf_elsewhere; [reflexivity|]. apply prefix_snoc_not.
Qed.

Lemma cleanup_run (i : invocation) (n : string) (rest : list string)
    (w : world) :
  argv i = n :: rest -> n <> ""%string ->
  is_dir (fs w) (script_dir i) = true ->
  (cleanup i w).1 = inl tt /\
  fs (cleanup i w).2 = rm_rf (fs w) (case_dir i n) /\
  cwd (cleanup i w).2 = cwd w /\
  stderr (cleanup i w).2 = stderr w /\
  commands (newly_ran w (cleanup i w).2)
  = [Cd (dirname (bash_source i)); Rm_rf (case_dir i n)].
Proof.
  intros Ha Hne Hd. unfold cleanup, cleanup_sh. rewrite (arg1_cons i n rest Ha).
  destruct (String.eqb_spec n ""); [contradiction|].
  unfold mbind, sh_mbind, sh_bind. rewrite !find_gnu.
  unfold cd_and_pwd, simple, newly_ran.
  unfold script_dir in Hd. cbn. rewrite Hd. cbn.
  rewrite !app_nil_r, <- app_assoc, drop_app_length. repeat split.
Qed.

End Cleanup.

(** C6.  [cleanup.sh <n>], called from a checkout (the directory of the
    script exists) with a case name [n], ends with status 0; afterwards
    neither the output directory [simulationCases/<n>] nor anything
    below it exists, and every other path is as before.  Called a second
    time, it ends with status 0 again, prints nothing to the standard
    error stream, and leaves the file system as the first call left
    it. *)
Theorem cleanup_removes_and_is_idempotent `{Host}
    (i : invocation) (n : string) (rest : list string) (w : world) :
  argv i = n :: rest -> valid_case_name n = true ->
  is_dir (fs w) (script_dir i) = true ->
  let once := cleanup i w in
  let twice := cleanup i once.2 in
  exit_status once.1 = 0%nat /\
  (forall p : path, case_dir i n `prefix_of` p -> fs once.2 !! p = None) /\
  (forall p : path, ~ case_dir i n `prefix_of` p -> fs once.2 !! p = fs w !! p) /\
  exit_status twice.1 = 0%nat /\
  fs twice.2 = fs once.2 /\
  stderr twice.2 = stderr once.2.
Proof.
  intros Ha Hn Hd. destruct (valid_case_name_plain n Hn) as [_ Hne]. cbv zeta.
  destruct (cleanup_run i n rest w Ha Hne Hd) as (R1 & F1 & _ & S1 & _).
  assert (Hd' : is_dir (fs (cleanup i w).2) (script_dir i) = true).
  { rewrite F1. unfold case_dir. now rewrite is_dir_rm_rf. }
  destruct (cleanup_run i n rest (cleanup i w).2 Ha Hne Hd')
    as (R2 & F2 & _ & S2 & _).
  rewrite R1, R2, F2, S2, F1. repeat split.
  - intros p Hp. now apply rm_rf_below.
  - intros p Hp. now apply rm_rf_elsewhere.
  - apply rm_rf_twice.
Qed.

Lemma cleanup_removes_and_is_idempotent_witness :
  let i := call "cleanup.sh" ["keller-segel"%string] in
  let w :=
    (@runCases test_host (call "runCases.sh" ["keller-segel"%string])
       (at_checkout (checkout "int main(){}"))).2 in
  argv i = ["keller-segel"%string] /\
  valid_case_name "keller-segel" = true /\
  is_dir (fs w) (script_dir i) = true /\
  fs w !! (case_dir i "keller-segel" ++ ["f.mp4"%string])
  = Some (File "frames") /\
  fs (@cleanup test_host i w).2 !! (case_dir i "keller-segel" ++ ["f.mp4"%string])
  = None.
Proof.
  cbv zeta. split; [reflexivity|]. split; [reflexivity|].
  split; [vm_compute; reflexivity|]. split; [vm_compute; reflexivity|].
  apply (proj1 (proj2 (@cleanup_removes_and_is_idempotent test_host
                  (call "cleanup.sh" ["keller-segel"%string])
                  "keller-segel" []
                  (@runCases test_host
                     (call "runCases.sh" ["keller-segel"%string])
                     (at_checkout (checkout "int main(){}"))).2
                  eq_refl eq_refl ltac:(vm_compute; reflexivity)))).
  apply prefix_app_r. reflexivity.
Defined.

(** * Further properties of the case files *)

(** ** What is printed and when *)

Section Written.
Context `{Basilisk}.
Import KellerSegel.


Lemma progress_lines_app (l l' : list output) :
  progress_lines (l ++ l') = progress_lines l ++ progress_lines l'.
Proof. apply List.filter_app. Qed.

Lemma movie_frames_app (l l' : list output) :
  movie_frames (l ++ l') = movie_frames l ++ movie_frames l'.
Proof. apply List.filter_app. Qed.

Lemma name_is_no_movie (x : string) :
  String.eqb ("mu-" ++ x ++ ".png") "f.mp4" = false.
Proof. reflexivity. Qed.

(** The counts of one iteration. *)
Lemma events_counts (s : sim) :
  length (progress_lines (out (events s)))
  = (length (progress_lines (out s))
     + if decide (iter s mod 10 = 1%nat) then 1 else 0)%nat /\
  length (movie_frames (out (events s)))
  = (length (movie_frames (out s))
     + if decide (iter s mod 10 = 1%nat) then 1 else 0)%nat /\
  length (out (events s))
  = (length (out s)
     + (if decide (iter s mod 10 = 1%nat) then 2 else 0)
     + (if at_t (frac 3000 1) s then 1 else 0))%nat.
Proof.
  destruct (events_frame s) as (_ & -> & _).
  rewrite !progress_lines_app, !movie_frames_app, !length_app.
  unfold movie_output, final_output.
  pose proof (from_i_every_1_10 s) as Hm.
  destruct (from_i_every 1 10 s); destruct (decide _) as [Hd|Hd];
    try (exfalso; intuition congruence);
    destruct (at_t _ s); cbn; repeat split; lia.
Qed.

Lemma tenth_step (n : nat) :
  ((S n + 8) / 10 = (n + 8) / 10 + if decide (n mod 10 = 1) then 1 else 0)%nat.
Proof.
  pose proof (Nat.div_mod_eq (S n + 8) 10).
  pose proof (Nat.div_mod_eq (n + 8) 10).
  pose proof (Nat.div_mod_eq n 10).
  pose proof (Nat.mod_upper_bound (S n + 8) 10).
  pose proof (Nat.mod_upper_bound (n + 8) 10).
  pose proof (Nat.mod_upper_bound n 10).
  destruct (decide _); lia.
Qed.

Lemma steps_counts (n : nat) (s : sim) :
  length (progress_lines (out (steps events n (start s))))
  = (length (progress_lines (out s)) + (n + 8) / 10)%nat /\
  length (movie_frames (out (steps events n (start s))))
  = (length (movie_frames (out s)) + (n + 8) / 10)%nat.
Proof.
  induction n as [|n [IH1 IH2]].
  { change ((0 + 8) / 10)%nat with 0%nat. cbn [steps start set_clock out].
    split; lia. }
  cbn [steps].
  destruct (step_frame (steps events n (start s))) as (_ & _ & _ & -> & _).
  destruct (events_counts (steps events n (start s))) as (-> & -> & _).
  rewrite IH1, IH2, steps_iter, tenth_step. split; lia.
Qed.

Lemma run_unit (fuel : nat) (s s' : sim) :
  unit_steps -> run fuel s = Some s' ->
  s' = events (steps events 3000 (start s)).
Proof.
  intros Hu Hr. apply loop_Some in Hr as (n & _ & -> & Hend & _).
  unfold at_t in Hend. apply bool_decide_eq_true in Hend.
  rewrite steps_time in Hend by exact Hu.
  assert (E : frac 3000 1 = whole 3000) by (apply Qc_is_canon; reflexivity).
  rewrite E in Hend. apply whole_inj in Hend. now subst n.
Qed.

Lemma loop_short (ev : sim -> sim) (te : Qc) (fuel : nat) (s : sim) :
  (forall i, (i < fuel)%nat -> at_t te (steps ev i s) = false) ->
  loop ev te fuel s = None.
Proof.
  revert s. induction fuel as [|fuel IH]; intros s Hb; [reflexivity|].
  simpl. pose proof (Hb 0%nat ltac:(lia)) as H0. simpl in H0. rewrite H0.
  apply IH. intros i Hi. change (advance (ev s)) with (step ev s).
  rewrite <- steps_shift. apply Hb. lia.
Qed.

(** What one finished run adds, under unit timesteps. *)
Lemma run_counts (fuel : nat) (s s' : sim) :
  unit_steps -> run fuel s = Some s' ->
  length (progress_lines (out s')) = (length (progress_lines (out s)) + 300)%nat /\
  length (movie_frames (out s')) = (length (movie_frames (out s)) + 300)%nat /\
  length (out s') = (length (out s) + 601)%nat.
Proof.
  intros Hu Hr. pose proof (run_unit fuel s s' Hu Hr) as ->.
  destruct (events_counts (steps events 3000 (start s))) as (-> & -> & E).
  destruct (steps_counts 3000 s) as (-> & ->).
  rewrite steps_iter.
  assert (Hlen : forall n, length (out (steps events n (start s)))
            = (length (out s) + 2 * ((n + 8) / 10)
               + length (final_images (out (steps events n (start s))))
               - length (final_images (out s)))%nat).
  { clear E. induction n as [|n IHn].
    { change ((0 + 8) / 10)%nat with 0%nat. cbn [steps start set_clock out]. lia. }
    cbn [steps].
    destruct (step_frame (steps events n (start s))) as (_ & _ & _ & -> & _).
    destruct (events_counts (steps events n (start s))) as (_ & _ & ->).
    rewrite final_images_events, length_app, IHn, steps_iter, tenth_step.
    assert (Hmono : (length (final_images (out s))
              <= length (final_images (out (steps events n (start s)))))%nat).
    { clear. induction n as [|n IHn]; [cbn [steps start set_clock out]; lia|].
      cbn [steps].
      destruct (step_frame (steps events n (start s))) as (_ & _ & _ & -> & _).
      rewrite final_images_events, length_app. lia. }
    destruct (decide _), (at_t _ _); cbn; lia. }
  assert (Hq : ((3000 + 8) / 10)%nat = 300%nat) by (vm_compute; reflexivity).
  rewrite Hq in *. pose proof (Hlen 3000%nat) as Hl. rewrite Hq in Hl.
  destruct (decide (3000 mod 10 = 1)%nat) as [Hd|_];
    [vm_compute in Hd; discriminate Hd|].
  split; [lia|]. split; [lia|].
  rewrite E, Hl. clear E Hl Hlen.
  assert (Ht : at_t (frac 3000 1) (steps events 3000 (start s)) = true).
  { unfold at_t. apply bool_decide_eq_true. rewrite steps_time by exact Hu.
    apply Qc_is_canon. reflexivity. }
  rewrite Ht, steps_iter.
  destruct (decide (3000 mod 10 = 1)%nat) as [Hd|_];
    [vm_compute in Hd; discriminate Hd|].
  rewrite steps_final_images.
  - change (out (start s)) with (out s). lia.
  - intros i Hi. unfold at_t. apply bool_decide_eq_false.
    rewrite steps_time by exact Hu.
    assert (E' : frac 3000 1 = whole 3000) by (apply Qc_is_canon; reflexivity).
    rewrite E'. intros Ew. apply whole_inj in Ew. lia.
Qed.

End Written.

Section MoreOfTheRun.
Context `{Basilisk}.
Import KellerSegel.

Lemma events_kb (s : sim) :
  kb (events s)
  = if at_i 0 s then sq (1 + ka * sqrt (1 / D)) * (1 + mu s) else kb s.
Proof.
  unfold events.
  destruct (integration_frame
              (when (at_t (frac 3000 1)) final
                 (when (from_i_every 1 10) movie (when (at_i 0) init s))))
    as (_ & _ & -> & _).
  unfold when at 1. destruct (at_t _ _); cbn [final write kb];
    unfold when at 1; destruct (from_i_every 1 10 _); cbn [movie write kb];
    unfold when; destruct (at_i 0 s); reflexivity.
Qed.

Lemma steps_kb (n : nat) (s : sim) :
  kb (steps events (S n) (start s)) = sq (1 + ka * sqrt (1 / D)) * (1 + mu s).
Proof.
  induction n as [|n IH].
  - cbn [steps]. unfold step. change (kb (advance ?x)) with (kb x).
    rewrite events_kb. reflexivity.
  - change (steps events (S (S n)) (start s))
      with (step events (steps events (S n) (start s))).
    unfold step. change (kb (advance ?x)) with (kb x).
    rewrite events_kb, at_i_steps. exact IH.
Qed.

Lemma sq_nonneg (x : Qc) : 0 <= sq x.
Proof.
  unfold sq. destruct (total Qcle 0 x) as [Hx|Hx].
  - now apply Qcmult_nonneg_nonneg.
  - apply Qcopp_le_compat in Hx. replace (- 0) with 0 in Hx by ring.
    replace (x * x) with (- x * - x) by ring.
    now apply Qcmult_nonneg_nonneg.
Qed.


End MoreOfTheRun.



(** X4.  Under unit timesteps a run takes exactly 3001 iterations: with a
    bound of 3000 or fewer it has not ended, with a larger bound it ends
    with the events of iteration 3000 at time 3000, and the result does
    not depend on the bound. *)
Theorem run_takes_3001_iterations `{Basilisk} (fuel : nat) (s : sim) :
  unit_steps ->
  ((fuel <= 3000)%nat -> KellerSegel.run fuel s = None) /\
  ((3001 <= fuel)%nat ->
   KellerSegel.run fuel s
   = Some (KellerSegel.events (steps KellerSegel.events 3000 (start s))) /\
   iter (KellerSegel.events (steps KellerSegel.events 3000 (start s)))
   = 3000%nat /\
   t (KellerSegel.events (steps KellerSegel.events 3000 (start s)))
   = frac 3000 1).
Proof.
  intros Hu.
  assert (E : frac 3000 1 = whole 3000) by (apply Qc_is_canon; reflexivity).
  split.
  - intros Hf. apply loop_short. intros i Hi. unfold at_t.
    apply bool_decide_eq_false. rewrite steps_time, E by exact Hu.
    intros Ew. apply whole_inj in Ew. lia.
  - intros Hf. split; [now apply run_ends|].
    destruct (events_frame (steps KellerSegel.events 3000 (start s)))
      as (F & _).
    unfold frame in F.
    assert (Ei : iter (KellerSegel.events
                         (steps KellerSegel.events 3000 (start s)))
                 = iter (steps KellerSegel.events 3000 (start s)))
      by congruence.
    assert (Et : t (KellerSegel.events
                      (steps KellerSegel.events 3000 (start s)))
                 = t (steps KellerSegel.events 3000 (start s)))
      by congruence.
    rewrite Ei, Et, steps_iter, steps_time, E by exact Hu. split; reflexivity.
Qed.

Lemma run_takes_3001_iterations_witness :
  @unit_steps quiet /\ (3000 <= 3000)%nat /\
  @KellerSegel.run quiet 3000 configured = None.
Proof.
  split; [exact quiet_unit_steps|]. split; [lia|].
  apply (proj1 (@run_takes_3001_iterations quiet 3000 configured
                  quiet_unit_steps)).
  lia.
Defined.

(** X5.  After [n] iterations of a run, whatever the timesteps, the run has
    written [(n + 8) / 10] progress lines and as many frames of the
    movie: one of each in the iterations 1, 11, 21, ... *)
Theorem frames_after_n_iterations `{Basilisk} (n : nat) (s : sim) :
  length (progress_lines (out (steps KellerSegel.events n (start s))))
  = (length (progress_lines (out s)) + (n + 8) / 10)%nat /\
  length (movie_frames (out (steps KellerSegel.events n (start s))))
  = (length (movie_frames (out s)) + (n + 8) / 10)%nat.
Proof. apply steps_counts. Qed.

(** X6.  Under unit timesteps [main] writes 900 frames, all to the one file
    [f.mp4], 900 progress lines and 3 final images, and nothing else. *)
Theorem main_output_volume `{Basilisk} (fuel : nat) :
  unit_steps -> (3001 <= fuel)%nat ->
  exists s : sim,
    KellerSegel.main fuel = Some s /\
    length (movie_frames (out s)) = 900%nat /\
    length (progress_lines (out s)) = 900%nat /\
    length (final_images (out s)) = 3%nat /\
    length (out s) = 1803%nat.
Proof.
  intros Hu Hf. rewrite main_is_three_runs.
  destruct (KellerSegel.run fuel (set_mu (frac 4 100) configured))
    as [s1|] eqn:R1; [|now rewrite run_ends in R1].
  cbn [mbind option_bind].
  destruct (KellerSegel.run fuel (set_mu (frac 1 10) s1))
    as [s2|] eqn:R2; [|now rewrite run_ends in R2].
  cbn [mbind option_bind].
  destruct (KellerSegel.run fuel (set_mu (frac 98 100) s2))
    as [s3|] eqn:R3; [|now rewrite run_ends in R3].
  exists s3. split; [reflexivity|].
  destruct (run_counts fuel _ _ Hu R1) as (P1 & M1 & L1).
  destruct (run_counts fuel _ _ Hu R2) as (P2 & M2 & L2).
  destruct (run_counts fuel _ _ Hu R3) as (P3 & M3 & L3).
  apply run_Some in R1 as (_ & _ & _ & F1).
  apply run_Some in R2 as (_ & _ & _ & F2).
  apply run_Some in R3 as (_ & _ & _ & F3).
  cbn [out set_mu] in *.
  rewrite M3, M2, M1, P3, P2, P1, L3, L2, L1, F3, F2, F1, !length_app.
  cbn. repeat split.
Qed.

Lemma main_output_volume_witness :
  @unit_steps quiet /\ (3001 <= 3001)%nat /\
  exists s : sim,
    @KellerSegel.main quiet 3001 = Some s /\ length (out s) = 1803%nat.
Proof.
  split; [exact quiet_unit_steps|]. split; [lia|].
  destruct (@main_output_volume quiet 3001 quiet_unit_steps (le_n 3001))
    as (s & Hm & _ & _ & _ & Hl).
  exists s. split; assumption.
Defined.

(** X7.  Within a run [kb] is what [init] made of [mu]: after the first
    iteration and at every later one it is [kbcrit (1 + mu)], with
    [kbcrit = (1 + ka sqrt(1/D))^2]; and a larger [mu] gives a [kb] at
    least as large, whatever [sqrt] returns. *)
Theorem kb_is_set_by_init_only `{Basilisk} :
  (forall (s : sim) (n : nat),
     kb (steps KellerSegel.events (S n) (start s))
     = sq (1 + KellerSegel.ka * sqrt (1 / KellerSegel.D)) * (1 + mu s)) /\
  (forall s s' : sim,
     mu s <= mu s' ->
     kb (KellerSegel.init s) <= kb (KellerSegel.init s')).
Proof.
  split.
  - intros s n. apply steps_kb.
  - intros s s' Hmu. unfold KellerSegel.init. cbn.
    apply Qcmult_le_mono_nonneg_l; [apply sq_nonneg|].
    now apply Qcplus_le_mono_l.
Qed.

Lemma kb_is_set_by_init_only_witness :
  mu (set_mu (frac 4 100) configured) <= mu (set_mu (frac 1 10) configured) /\
  kb (@KellerSegel.init quiet (set_mu (frac 4 100) configured))
  <= kb (@KellerSegel.init quiet (set_mu (frac 1 10) configured)).
Proof.
  assert (Hmu : mu (set_mu (frac 4 100) configured)
                <= mu (set_mu (frac 1 10) configured))
    by (unfold Qcle, Qle; simpl; lia).
  split; [exact Hmu|].
  exact (proj2 (@kb_is_set_by_init_only quiet) _ _ Hmu).
Defined.

(** X8.  The final image is the last thing a run writes: it is written in
    the iteration that ends the run, after the movie frame of that
    iteration if there is one and before the integration step of that
    iteration, so it shows [C1] as the previous iteration left it. *)
Theorem final_image_closes_run `{Basilisk} (fuel : nat) (s s' : sim) :
  KellerSegel.run fuel s = Some s' ->
  exists n : nat,
    s' = KellerSegel.events (steps KellerSegel.events n (start s)) /\
    last (out s')
    = Some (Ppm ("mu-" ++ fmt_g (mu s) ++ ".png") 200 true (frac 2 1)
              (C1 (when (at_i 0) KellerSegel.init
                     (steps KellerSegel.events n (start s))))).
Proof.
  intros Hr. apply loop_Some in Hr as (n & _ & -> & Hend & _).
  exists n. split; [reflexivity|].
  destruct (events_frame (steps KellerSegel.events n (start s)))
    as (_ & -> & _).
  unfold final_output. rewrite Hend.
  pose proof (steps_grid n (start s)) as G.
  assert (Em : mu (steps KellerSegel.events n (start s)) = mu s)
    by (cbn in G; congruence).
  rewrite Em, !app_assoc. apply last_snoc.
Qed.

Lemma final_image_closes_run_witness :
  exists s' : sim,
    @KellerSegel.run quiet 3001 configured = Some s' /\
    exists n : nat,
      s' = @KellerSegel.events quiet
             (steps (@KellerSegel.events quiet) n (start configured)).
Proof.
  exists (@KellerSegel.events quiet
            (steps (@KellerSegel.events quiet) 3000 (start configured))).
  assert (Hr : @KellerSegel.run quiet 3001 configured
               = Some (@KellerSegel.events quiet
                         (steps (@KellerSegel.events quiet) 3000
                            (start configured))))
    by (apply run_ends; [exact quiet_unit_steps | lia]).
  split; [exact Hr|].
  destruct (@final_image_closes_run quiet _ _ _ Hr) as (n & Hn & _).
  exists n. exact Hn.
Defined.

(** * Further properties of the run scripts *)

Section Files.

Lemma ancestors_snoc (p : path) (c : string) :
  ancestors (p ++ [c]) = ancestors p ++ [p ++ [c]].
Proof.
  unfold ancestors. rewrite length_app. cbn [length].
  replace (length p + 1)%nat with (S (length p)) by lia.
  rewrite seq_S, map_app. cbn [map]. f_equal.
  - apply map_ext_in. intros k Hk. apply in_seq in Hk.
    apply take_app_le. lia.
  - f_equal. replace (1 + length p)%nat with (length (p ++ [c]))
      by (rewrite length_app; cbn; lia).
    apply firstn_all.
Qed.

Lemma ancestors_prefix (p q : path) : q ∈ ancestors p -> q `prefix_of` p.
Proof.
  unfold ancestors. intros Hq. apply list_elem_of_In, in_map_iff in Hq.
  destruct Hq as (k & <- & _). apply prefix_take.
Qed.

Lemma not_ancestor_of_dir (p q : path) (a : string) :
  p ++ [a] `prefix_of` q -> q ∉ ancestors p.
Proof.
  intros Hpq Hq. apply ancestors_prefix in Hq.
  apply (prefix_snoc_not p a). now transitivity q.
Qed.

Lemma mkdir_p_lookup (f : gmap path node) (d p : path) :
  mkdir_p f d !! p
  = match f !! p with
    | Some x => Some x
    | None => if decide (p ∈ ancestors d) then Some Dir else None
    end.
Proof.
  unfold mkdir_p. destruct (f !! p) as [x|] eqn:E.
  - now apply lookup_union_Some_l.
  - rewrite lookup_union_r by exact E.
    destruct (decide _) as [Hin|Hin].
    + apply lookup_gset_to_gmap_Some. split; [|reflexivity].
      now apply elem_of_list_to_set.
    + apply lookup_gset_to_gmap_None. now rewrite elem_of_list_to_set.
Qed.

Lemma mkdir_p_keeps (f : gmap path node) (d p : path) (x : node) :
  f !! p = Some x -> mkdir_p f d !! p = Some x.
Proof. intros E. now rewrite mkdir_p_lookup, E. Qed.

Lemma mkdir_p_elsewhere (f : gmap path node) (d p : path) :
  p ∉ ancestors d -> mkdir_p f d !! p = f !! p.
Proof.
  intros Hp. rewrite mkdir_p_lookup. destruct (f !! p); [reflexivity|].
  now destruct (decide _).
Qed.

Lemma blocked_false (f : gmap path node) (d q : path) :
  blocked f d = false -> q ∈ ancestors d -> is_file f q = false.
Proof.
  unfold blocked. intros Hb Hq.
  destruct (is_file f q) eqn:E; [|reflexivity].
  assert (Hex : existsb (is_file f) (ancestors d) = true).
  { apply existsb_exists. exists q. split; [now apply list_elem_of_In|exact E]. }
  congruence.
Qed.

Lemma mkdir_p_made (f : gmap path node) (p : path) (c : string) :
  blocked f (p ++ [c]) = false -> mkdir_p f (p ++ [c]) !! (p ++ [c]) = Some Dir.
Proof.
  intros Hb.
  assert (Hin : p ++ [c] ∈ ancestors (p ++ [c])).
  { rewrite ancestors_snoc. apply elem_of_app. right. apply elem_of_cons. now left. }
  pose proof (blocked_false f _ _ Hb Hin) as Hf. unfold is_file in Hf.
  rewrite mkdir_p_lookup. destruct (f !! (p ++ [c])) as [[x|]|]; try congruence.
  now destruct (decide _).
Qed.

Lemma is_dir_mkdir_p (f : gmap path node) (d p : path) :
  is_dir f p = true -> is_dir (mkdir_p f d) p = true.
Proof.
  unfold is_dir. destruct p as [|a p]; [reflexivity|].
  destruct (f !! (a :: p)) as [[x|]|] eqn:E; try discriminate.
  intros _. now rewrite (mkdir_p_keeps f d _ Dir E).
Qed.

Lemma is_dir_insert_file (f : gmap path node) (k p : path) (x : string) :
  p <> k -> is_dir (<[k := File x]> f) p = is_dir f p.
Proof.
  intros Hne. unfold is_dir. destruct p as [|a p]; [reflexivity|].
  rewrite lookup_insert_ne by congruence. reflexivity.
Qed.

Lemma is_dir_snoc (f : gmap path node) (p : path) (c : string) :
  is_dir f (p ++ [c]) = true <-> f !! (p ++ [c]) = Some Dir.
Proof.
  unfold is_dir. destruct (p ++ [c]) as [|a q] eqn:E.
  - now apply app_eq_nil in E as [_ E].
  - destruct (f !! (a :: q)) as [[x|]|]; split; congruence.
Qed.

End Files.

Section Forward.
Context `{Host}.

Lemma bind_step {A B : Type} (m : sh A) (k : A -> sh B)
    (w w' : world) (a : A) :
  m w = (inl a, w') -> (m ≫= k) w = k a w'.
Proof. unfold mbind, sh_mbind, sh_bind. now intros ->. Qed.

Lemma bind_stop {A B : Type} (m : sh A) (k : A -> sh B)
    (w w' : world) (st : nat) :
  m w = (inr st, w') -> (m ≫= k) w = (inr st, w').
Proof. unfold mbind, sh_mbind, sh_bind. now intros ->. Qed.

Lemma simple_ok (c : command) (w : world) (f' : gmap path node) (d' : path) :
  perform c (fs w) (cwd w) = Outcome 0 f' d' [] ->
  simple c w = (inl tt, World f' d' (stderr w) (ran w ++ [(c, 0%nat, [])])).
Proof. unfold simple. intros ->. cbn. now rewrite app_nil_r. Qed.

Lemma simple_went (c : command) (w : world) (f' : gmap path node)
    (d' : path) (msgs : list string) :
  perform c (fs w) (cwd w) = Outcome 0 f' d' msgs ->
  simple c w
  = (inl tt, World f' d' (stderr w ++ msgs) (ran w ++ [(c, 0%nat, msgs)])).
Proof. unfold simple. now intros ->. Qed.

Lemma simple_failed (c : command) (w : world) (f' : gmap path node)
    (d' : path) (k : nat) (msgs : list string) :
  perform c (fs w) (cwd w) = Outcome (S k) f' d' msgs ->
  simple c w
  = (inr (S k), World f' d' (stderr w ++ msgs) (ran w ++ [(c, S k, msgs)])).
Proof. unfold simple. now intros ->. Qed.

Lemma cd_and_pwd_ok (dir : path) (w : world) :
  is_dir (fs w) (resolve dir) = true ->
  cd_and_pwd dir w
  = (inl (resolve dir),
     World (fs w) (cwd w) (stderr w) (ran w ++ [(Cd dir, 0%nat, [])])).
Proof.
  intros Hd. unfold cd_and_pwd.
  rewrite (simple_ok (Cd dir) w (fs w) (resolve dir)); [reflexivity|].
  cbn. now rewrite Hd.
Qed.

Lemma subshell_two (c1 c2 : command) (w w1 : world) :
  simple c1 w = (inl tt, w1) ->
  subshell (simple c1;; simple c2) w
  = ((simple c2 w1).1,
     World (fs (simple c2 w1).2) (cwd w) (stderr (simple c2 w1).2)
           (ran (simple c2 w1).2)).
Proof.
  intros E1. unfold subshell. rewrite (bind_step _ _ _ _ _ E1).
  unfold simple at 1 2 3 4 5.
  destruct (status (perform c2 (fs w1) (cwd w1))); reflexivity.
Qed.

Lemma repo_root_parent (i : invocation) :
  repo_root i = removelast (script_dir i).
Proof.
  unfold repo_root, resolve. rewrite foldl_app. cbn [foldl].
  fold (resolve (script_dir i)). unfold script_dir at 1.
  rewrite resolve_resolve. reflexivity.
Qed.

Lemma resolve_repo_root (i : invocation) : resolve (repo_root i) = repo_root i.
Proof. unfold repo_root. apply resolve_resolve. Qed.

Lemma length_removelast_le {A : Type} (l : list A) :
  (length (removelast l) <= length l)%nat.
Proof. induction l as [|x [|y l] IH]; cbn in *; lia. Qed.

Lemma repo_root_not_below (i : invocation) (a : string) (q : path) :
  script_dir i ++ [a] `prefix_of` q -> repo_root i <> q.
Proof.
  intros Hp E. apply prefix_length in Hp. rewrite length_app in Hp. cbn in Hp.
  rewrite <- E, repo_root_parent in Hp.
  pose proof (length_removelast_le (script_dir i)). lia.
Qed.

(** The files when the program is started. *)
Lemma copied_lookup (i : invocation) (n c : string) (f : gmap path node)
    (p : path) :
  p <> case_dir i n ++ [(n +:+ ".c")%string] ->
  copied i n c f !! p = mkdir_p f (case_dir i n) !! p.
Proof. intros Hp. unfold copied. now rewrite lookup_insert_ne by congruence. Qed.

Lemma below_case_dir_not_ancestor (i : invocation) (n a : string) :
  case_dir i n ++ [a] ∉ ancestors (case_dir i n).
Proof. apply (not_ancestor_of_dir _ _ a). reflexivity. Qed.

Lemma case_source_not_ancestor (i : invocation) (n : string) :
  case_source i n ∉ ancestors (case_dir i n).
Proof.
  unfold case_source, case_dir. rewrite ancestors_snoc. intros Hin.
  apply elem_of_app in Hin as [Hin|Hin].
  - apply ancestors_prefix in Hin. now apply prefix_snoc_not in Hin.
  - apply elem_of_cons in Hin as [E|Hin]; [|now apply elem_of_nil in Hin].
    apply app_inv_head in E. injection E as E. now apply name_c_differs in E.
Qed.

Lemma case_source_not_copy (i : invocation) (n : string) (a : string) :
  case_source i n <> case_dir i n ++ [a].
Proof.
  unfold case_source, case_dir. intros E.
  apply (f_equal length) in E. rewrite !length_app in E. cbn in E. lia.
Qed.

End Forward.

Section Outcomes.
Context `{Host}.

Lemma perform_mkdir_p_ok (d cw : path) (f : gmap path node) :
  blocked f d = false ->
  perform (Mkdir_p d) f cw = Outcome 0 (mkdir_p f d) cw [].
Proof. intros Hb. cbn. now rewrite Hb. Qed.

Lemma perform_cd_ok (d cw : path) (f : gmap path node) :
  is_dir f (resolve d) = true -> perform (Cd d) f cw = Outcome 0 f (resolve d) [].
Proof. intros Hd. cbn. now rewrite Hd. Qed.

Lemma made_dir (i : invocation) (n : string) (f : gmap path node) :
  blocked f (case_dir i n) = false ->
  is_dir (mkdir_p f (case_dir i n)) (case_dir i n) = true.
Proof.
  intros Hb. apply is_dir_snoc. now apply mkdir_p_made.
Qed.

Lemma perform_cp_ok (i : invocation) (n c : string) (cw : path)
    (f : gmap path node) :
  preparable i n c f ->
  perform (Cp (case_source i n) (case_dir i n)) (mkdir_p f (case_dir i n)) cw
  = Outcome 0 (copied i n c f) cw [].
Proof.
  intros (_ & _ & Hb & Hs & Hc). cbn. unfold cp.
  rewrite (mkdir_p_keeps _ _ _ _ Hs), made_dir by exact Hb.
  unfold case_source at 1 2. rewrite basename_snoc.
  assert (Hn : is_dir (mkdir_p f (case_dir i n))
                 (case_dir i n ++ [(n +:+ ".c")%string]) = false).
  { destruct (is_dir (mkdir_p f (case_dir i n)) _) eqn:E; [|reflexivity].
    apply is_dir_snoc in E.
    rewrite mkdir_p_elsewhere in E by apply below_case_dir_not_ancestor.
    apply is_dir_snoc in E. congruence. }
  rewrite Hn. reflexivity.
Qed.

Lemma perform_cp_fails (i : invocation) (n : string) (cw : path)
    (f : gmap path node) :
  is_file f (case_source i n) = false ->
  perform (Cp (case_source i n) (case_dir i n)) (mkdir_p f (case_dir i n)) cw
  = Outcome 1 (mkdir_p f (case_dir i n)) cw ["cp: cannot copy"%string].
Proof.
  intros Hs. cbn. unfold cp.
  rewrite mkdir_p_elsewhere by apply case_source_not_ancestor.
  unfold is_file in Hs. destruct (f !! case_source i n) as [[x|]|];
    [discriminate|reflexivity|reflexivity].
Qed.

Lemma copied_source (i : invocation) (n c : string) (f : gmap path node) :
  f !! case_source i n = Some (File c) ->
  copied i n c f !! case_source i n = Some (File c).
Proof.
  intros Hs. rewrite copied_lookup by apply case_source_not_copy.
  now apply mkdir_p_keeps.
Qed.

Lemma copied_dir (i : invocation) (n c : string) (f : gmap path node) :
  blocked f (case_dir i n) = false ->
  is_dir (copied i n c f) (case_dir i n) = true.
Proof.
  intros Hb. unfold copied. rewrite is_dir_insert_file.
  - now apply made_dir.
  - intros E. apply (f_equal length) in E. rewrite length_app in E.
    cbn in E. lia.
Qed.

Lemma copied_exe (i : invocation) (n c : string) (f : gmap path node) :
  is_dir f (case_dir i n ++ [n]) = false ->
  is_dir (copied i n c f) (case_dir i n ++ [n]) = false.
Proof.
  intros He. unfold copied. rewrite is_dir_insert_file
    by (apply snoc_differs, not_eq_sym, name_c_differs).
  destruct (is_dir (mkdir_p f (case_dir i n)) _) eqn:E; [|reflexivity].
  apply is_dir_snoc in E.
  rewrite mkdir_p_elsewhere in E by apply below_case_dir_not_ancestor.
  apply is_dir_snoc in E. congruence.
Qed.

Lemma copied_root (i : invocation) (n c : string) (f : gmap path node) :
  is_dir f (repo_root i) = true -> is_dir (copied i n c f) (repo_root i) = true.
Proof.
  intros Hr. unfold copied. rewrite is_dir_insert_file.
  - now apply is_dir_mkdir_p.
  - apply (repo_root_not_below i n). unfold case_dir. apply prefix_app_r.
    reflexivity.
Qed.

Lemma perform_qcc_ok (i : invocation) (n c bin : string)
    (warnings : list string) (f : gmap path node) :
  buildable i n c bin warnings f ->
  perform (Qcc (repo_root i ++ ["src-local"%string]) (case_source i n)
               (case_dir i n ++ [n]))
          (copied i n c f) (repo_root i)
  = Outcome 0 (built i n c bin f) (repo_root i) warnings.
Proof. intros (_ & _ & Hq). cbn. unfold qcc. now rewrite Hq. Qed.

Lemma perform_qcc_fails (i : invocation) (n c : string) (f : gmap path node)
    (st : nat) (msgs : list string) (unlinks : bool) :
  qcc_compile (copied i n c f) (repo_root i)
    (repo_root i ++ ["src-local"%string]) (case_source i n)
    (case_dir i n ++ [n]) = Rejected st msgs unlinks ->
  perform (Qcc (repo_root i ++ ["src-local"%string]) (case_source i n)
               (case_dir i n ++ [n]))
          (copied i n c f) (repo_root i)
  = Outcome (S st)
      (if unlinks then delete (case_dir i n ++ [n]) (copied i n c f)
       else copied i n c f)
      (repo_root i) msgs.
Proof. intros Hq. cbn. unfold qcc. now rewrite Hq. Qed.

Lemma built_dir (i : invocation) (n c bin : string) (f : gmap path node) :
  blocked f (case_dir i n) = false ->
  is_dir (built i n c bin f) (case_dir i n) = true.
Proof.
  intros Hb. unfold built. rewrite is_dir_insert_file.
  - now apply copied_dir.
  - intros E. apply (f_equal length) in E. rewrite length_app in E.
    cbn in E. lia.
Qed.

(** [runCases.sh] up to the copy. *)
Lemma runCases_to_copy (i : invocation) (n : string) (rest : list string)
    (w : world) :
  argv i = n :: rest -> n <> ""%string ->
  is_dir (fs w) (script_dir i) = true ->
  is_dir (fs w) (repo_root i) = true ->
  blocked (fs w) (case_dir i n) = false ->
  runCases i w
  = (simple (Cp (case_source i n) (case_dir i n));;
     subshell (
       simple (Cd (repo_root i));;
       simple (Qcc (repo_root i ++ ["src-local"%string]) (case_source i n)
                   (case_dir i n ++ [n])));;
     subshell (simple (Cd (case_dir i n));; simple (Exec n)))
      (World (mkdir_p (fs w) (case_dir i n)) (cwd w) (stderr w)
         (ran w ++ [(Cd (dirname (bash_source i)), 0%nat, []);
                    (Cd (script_dir i ++ [".."%string]), 0%nat, []);
                    (Mkdir_p (case_dir i n), 0%nat, [])])).
Proof.
  intros Ha Hne Hsd Hroot Hb. unfold runCases, runCases_sh.
  rewrite (arg1_cons i n rest Ha).
  destruct (String.eqb_spec n ""); [contradiction|].
  erewrite bind_step by (rewrite find_gnu; apply cd_and_pwd_ok; exact Hsd).
  fold (script_dir i).
  erewrite bind_step by (apply cd_and_pwd_ok; exact Hroot).
  fold (repo_root i). fold (case_dir i n). fold (case_source i n).
  erewrite bind_step
    by (apply simple_ok, perform_mkdir_p_ok; exact Hb).
  cbn [fs cwd stderr ran]. rewrite <- !app_assoc. reflexivity.
Qed.

End Outcomes.

(** ** The test host *)

Lemma test_host_confined : @confined test_host.
Proof.
  intros bin d f p Hp. cbn.
  destruct (String.eqb bin "ELF:crash"); cbn; [reflexivity|].
  apply lookup_insert_ne. intros <-. apply Hp, prefix_app_r. reflexivity.
Qed.

Lemma checkout_rooted (source : string) :
  rooted (checkout source)
    (script_dir (call "runCases.sh" ["keller-segel"%string])).
Proof.
  intros q Hq. vm_compute in Hq.
  apply elem_of_cons in Hq as [->|Hq]; [reflexivity|].
  apply elem_of_cons in Hq as [->|Hq]; [reflexivity|].
  now apply elem_of_nil in Hq.
Qed.

Lemma checkout_has_no_output (source : string) (p : path) :
  case_dir (call "runCases.sh" ["keller-segel"%string]) "keller-segel"
    `prefix_of` p ->
  checkout source !! p = None.
Proof.
  intros [k ->]. unfold checkout. apply not_elem_of_list_to_map_1.
  cbn [fmap list_fmap fst]. intros Hin.
  repeat (apply elem_of_cons in Hin as [Hin|Hin]; [discriminate Hin|]).
  now apply elem_of_nil in Hin.
Qed.

(** ** A build that fails *)

(** X9.  Without the case file, [runCases.sh <n>] ends with status 1 at the
    copy: the output directory has been made and stays behind, nothing
    that existed is lost, no path outside the line from the root to the
    output directory is touched, and neither [qcc] nor any program was
    run. *)
Theorem missing_source_leaves_directory `{Host}
    (i : invocation) (n : string) (rest : list string) (w : world) :
  argv i = n :: rest -> valid_case_name n = true ->
  is_dir (fs w) (script_dir i) = true ->
  is_dir (fs w) (repo_root i) = true ->
  blocked (fs w) (case_dir i n) = false ->
  is_file (fs w) (case_source i n) = false ->
  (runCases i w).1 = inr 1%nat /\
  fs (runCases i w).2 !! case_dir i n = Some Dir /\
  (forall (p : path) (x : node),
     fs w !! p = Some x -> fs (runCases i w).2 !! p = Some x) /\
  (forall p : path,
     ~ p `prefix_of` case_dir i n -> fs (runCases i w).2 !! p = fs w !! p) /\
  commands (newly_ran w (runCases i w).2)
  = [Cd (dirname (bash_source i)); Cd (script_dir i ++ [".."%string]);
     Mkdir_p (case_dir i n); Cp (case_source i n) (case_dir i n)].
Proof.
  intros Ha Hn Hsd Hroot Hb Hs.
  destruct (valid_case_name_plain n Hn) as [_ Hne].
  rewrite (runCases_to_copy i n rest w Ha Hne Hsd Hroot Hb).
  erewrite bind_stop
    by (apply simple_failed, perform_cp_fails; exact Hs).
  cbn [fst snd fs ran]. unfold newly_ran. cbn [ran].
  rewrite <- app_assoc, drop_app_length.
  split; [reflexivity|]. split; [now apply mkdir_p_made|].
  split; [intros p x; apply mkdir_p_keeps|]. split; [|reflexivity].
  intros p Hp. apply mkdir_p_elsewhere. intros Hin.
  now apply ancestors_prefix in Hin.
Qed.

Lemma missing_source_leaves_directory_witness :
  let i := call "runCases.sh" ["keller-segel"%string] in
  let w := at_checkout bare_checkout in
  is_file (fs w) (case_source i "keller-segel") = false /\
  (@runCases test_host i w).1 = inr 1%nat /\
  fs (@runCases test_host i w).2 !! case_dir i "keller-segel" = Some Dir.
Proof.
  cbv zeta. split; [vm_compute; reflexivity|].
  pose proof (@missing_source_leaves_directory test_host
                (call "runCases.sh" ["keller-segel"%string])
                "keller-segel" [] (at_checkout bare_checkout)
                eq_refl eq_refl
                ltac:(vm_compute; reflexivity) ltac:(vm_compute; reflexivity)
                ltac:(vm_compute; reflexivity) ltac:(vm_compute; reflexivity))
    as (E1 & E2 & _).
  split; [exact E1|exact E2].
Defined.

(** X10.  When [qcc] gives no executable, [runCases.sh <n>] ends with the
    exit status of [qcc], which is not 0, and the messages of [qcc] are
    what it adds to the standard error stream.  The copy of the source
    is in the output directory; the path of the executable holds nothing
    if [qcc] has removed its output, and what it held before if [qcc]
    has left it alone; no program was run. *)
Theorem compile_failure_leaves_copy `{Host}
    (i : invocation) (n c : string) (rest : list string) (w : world)
    (st : nat) (msgs : list string) (unlinks : bool) :
  argv i = n :: rest -> valid_case_name n = true ->
  preparable i n c (fs w) ->
  qcc_compile (copied i n c (fs w)) (repo_root i)
    (repo_root i ++ ["src-local"%string]) (case_source i n)
    (case_dir i n ++ [n]) = Rejected st msgs unlinks ->
  (runCases i w).1 = inr (S st) /\
  stderr (runCases i w).2 = stderr w ++ msgs /\
  fs (runCases i w).2 !! (case_dir i n ++ [(n +:+ ".c")%string])
  = Some (File c) /\
  fs (runCases i w).2 !! (case_dir i n ++ [n])
  = (if unlinks then None else fs w !! (case_dir i n ++ [n])) /\
  commands (newly_ran w (runCases i w).2)
  = [Cd (dirname (bash_source i)); Cd (script_dir i ++ [".."%string]);
     Mkdir_p (case_dir i n); Cp (case_source i n) (case_dir i n);
     Cd (repo_root i);
     Qcc (repo_root i ++ ["src-local"%string]) (case_source i n)
         (case_dir i n ++ [n])].
Proof.
  intros Ha Hn Hp Hq.
  destruct (valid_case_name_plain n Hn) as [_ Hne].
  pose proof Hp as (Hsd & Hroot & Hb & Hs & Hc).
  rewrite (runCases_to_copy i n rest w Ha Hne Hsd Hroot Hb).
  erewrite bind_step
    by (apply simple_ok; cbn [fs cwd]; apply perform_cp_ok; exact Hp).
  erewrite bind_stop.
  2:{ erewrite subshell_two.
      2:{ apply simple_ok. cbn [fs cwd]. apply perform_cd_ok.
          rewrite resolve_repo_root. now apply copied_root. }
      rewrite resolve_repo_root.
      erewrite simple_failed
        by (cbn [fs cwd]; apply perform_qcc_fails; exact Hq).
      cbn [fst snd fs cwd stderr ran]. reflexivity. }
  cbn [fst snd fs stderr ran]. unfold newly_ran. cbn [ran].
  rewrite <- !app_assoc, drop_app_length.
  assert (Hne' : case_dir i n ++ [n] <> case_dir i n ++ [(n +:+ ".c")%string])
    by (apply snoc_differs, not_eq_sym, name_c_differs).
  split; [reflexivity|]. split; [reflexivity|]. split; [|split; [|reflexivity]].
  - destruct unlinks; [rewrite lookup_delete_ne by exact Hne'|];
      apply lookup_insert_eq.
  - destruct unlinks; [apply lookup_delete_eq|].
    rewrite copied_lookup by exact Hne'.
    apply mkdir_p_elsewhere, below_case_dir_not_ancestor.
Qed.

(** A build in a directory that holds the executable of an earlier
    build, of a source that no longer links: the old executable is
    gone. *)
Lemma compile_failure_leaves_copy_witness :
  let i := call "runCases.sh" ["keller-segel"%string] in
  let before :=
    (@runCases test_host i (at_checkout (checkout "int main(){}"))).2 in
  let w :=
    World (<[case_source i "keller-segel" := File "int main(){f();}"]>
             (fs before))
          ["repo"%string] [] [] in
  preparable i "keller-segel" "int main(){f();}" (fs w) /\
  fs w !! (case_dir i "keller-segel" ++ ["keller-segel"%string])
  = Some (File "ELF:int main(){}") /\
  (@runCases test_host i w).1 = inr 1%nat /\
  stderr (@runCases test_host i w).2
  = ["ld: undefined reference to f"%string] /\
  fs (@runCases test_host i w).2
    !! (case_dir i "keller-segel" ++ ["keller-segel.c"%string])
  = Some (File "int main(){f();}") /\
  fs (@runCases test_host i w).2
    !! (case_dir i "keller-segel" ++ ["keller-segel"%string])
  = None.
Proof.
  cbv zeta.
  match goal with |- ?P /\ _ => assert (Hp : P)
    by (repeat split; vm_compute; reflexivity) end.
  split; [exact Hp|]. split; [vm_compute; reflexivity|].
  pose proof (@compile_failure_leaves_copy test_host
                (call "runCases.sh" ["keller-segel"%string])
                "keller-segel" "int main(){f();}" [] _
                0%nat ["ld: undefined reference to f"%string] true
                eq_refl eq_refl Hp ltac:(vm_compute; reflexivity))
    as (E1 & E2 & E3 & E4 & _).
  split; [exact E1|]. split; [exact E2|]. split; [exact E3|exact E4].
Defined.

(** ** A build that starts the program *)

Section Started.
Context `{Host}.

Lemma built_exe (i : invocation) (n c bin : string) (f : gmap path node) :
  built i n c bin f !! (case_dir i n ++ [n]) = Some (File bin).
Proof. apply lookup_insert_eq. Qed.

Lemma built_copy (i : invocation) (n c bin : string) (f : gmap path node) :
  built i n c bin f !! (case_dir i n ++ [(n +:+ ".c")%string])
  = Some (File c).
Proof.
  unfold built. rewrite lookup_insert_ne
    by (apply snoc_differs, not_eq_sym, name_c_differs).
  apply lookup_insert_eq.
Qed.

Lemma built_keeps (i : invocation) (n c bin : string) (f : gmap path node)
    (p : path) (x : node) :
  f !! p = Some x ->
  p <> case_dir i n ++ [(n +:+ ".c")%string] -> p <> case_dir i n ++ [n] ->
  built i n c bin f !! p = Some x.
Proof.
  intros Hx H1 H2. unfold built, copied.
  rewrite !lookup_insert_ne by congruence. now apply mkdir_p_keeps.
Qed.

Lemma perform_exec_built (i : invocation) (n c bin : string)
    (f : gmap path node) :
  perform (Exec n) (built i n c bin f) (case_dir i n)
  = Outcome (execute bin (case_dir i n) (built i n c bin f)).1.1
            (execute bin (case_dir i n) (built i n c bin f)).1.2
            (case_dir i n)
            (execute bin (case_dir i n) (built i n c bin f)).2.
Proof.
  cbn [perform]. rewrite built_exe.
  now destruct (execute bin (case_dir i n) (built i n c bin f)) as [[st f'] msgs].
Qed.

Lemma runCases_started (i : invocation) (n c bin : string)
    (warnings : list string) (rest : list string) (w : world) :
  argv i = n :: rest -> valid_case_name n = true ->
  buildable i n c bin warnings (fs w) ->
  exit_status (runCases i w).1
  = (execute bin (case_dir i n) (built i n c bin (fs w))).1.1 /\
  fs (runCases i w).2
  = (execute bin (case_dir i n) (built i n c bin (fs w))).1.2 /\
  cwd (runCases i w).2 = cwd w /\
  stderr (runCases i w).2
  = stderr w ++ warnings
    ++ (execute bin (case_dir i n) (built i n c bin (fs w))).2 /\
  commands (newly_ran w (runCases i w).2) = build_plan i n.
Proof.
  intros Ha Hn Hbd.
  destruct (valid_case_name_plain n Hn) as [_ Hne].
  pose proof Hbd as (Hp & He & Hq).
  pose proof Hp as (Hsd & Hroot & Hb & Hs & Hc).
  rewrite (runCases_to_copy i n rest w Ha Hne Hsd Hroot Hb).
  erewrite bind_step
    by (apply simple_ok; cbn [fs cwd]; apply perform_cp_ok; exact Hp).
  erewrite bind_step.
  2:{ erewrite subshell_two.
      2:{ apply simple_ok. cbn [fs cwd]. apply perform_cd_ok.
          rewrite resolve_repo_root. now apply copied_root. }
      rewrite resolve_repo_root.
      erewrite simple_went
        by (cbn [fs cwd]; apply perform_qcc_ok; exact Hbd).
      cbn [fst snd fs cwd stderr ran]. reflexivity. }
  erewrite subshell_two.
  2:{ apply simple_ok. cbn [fs cwd]. apply perform_cd_ok.
      rewrite resolve_case_dir by exact Hn. now apply built_dir. }
  rewrite resolve_case_dir by exact Hn.
  unfold simple. cbn [fs cwd stderr ran]. rewrite perform_exec_built.
  destruct (execute bin (case_dir i n) (built i n c bin (fs w)))
    as [[st f'] msgs].
  cbn [status files dir_after messages fst snd].
  unfold newly_ran, build_plan.
  destruct st; cbn [fst snd fs cwd stderr ran exit_status];
    rewrite <- !app_assoc, drop_app_length; repeat split.
Qed.

End Started.

(** X11.  Where the directories exist, [<n>.c] is a file, nothing is in the
    way and [qcc] compiles it, [runCases.sh <n>] gets as far as running
    the program: all eight commands are run, the program is started in
    the output directory on files that hold the output directory, the
    copy of the source and the executable, and in which everything that
    existed before, these two paths apart, is as it was; the exit status
    of the script is the exit status of the program, the files at the end
    are the files the program leaves, and what is added to the standard
    error stream is the warnings of [qcc] followed by the lines of the
    program. *)
Theorem build_runs_program_when_buildable `{Host}
    (i : invocation) (n c bin : string) (warnings : list string)
    (rest : list string) (w : world) :
  argv i = n :: rest -> valid_case_name n = true ->
  buildable i n c bin warnings (fs w) ->
  let started := built i n c bin (fs w) in
  let r := execute bin (case_dir i n) started in
  exit_status (runCases i w).1 = r.1.1 /\
  fs (runCases i w).2 = r.1.2 /\
  stderr (runCases i w).2 = stderr w ++ warnings ++ r.2 /\
  commands (newly_ran w (runCases i w).2) = build_plan i n /\
  started !! case_dir i n = Some Dir /\
  started !! (case_dir i n ++ [(n +:+ ".c")%string]) = Some (File c) /\
  started !! (case_dir i n ++ [n]) = Some (File bin) /\
  (forall (p : path) (x : node),
     fs w !! p = Some x ->
     p <> case_dir i n ++ [(n +:+ ".c")%string] ->
     p <> case_dir i n ++ [n] ->
     started !! p = Some x).
Proof.
  intros Ha Hn Hbd. cbv zeta.
  destruct (runCases_started i n c bin warnings rest w Ha Hn Hbd)
    as (E1 & E2 & _ & E3 & E4).
  destruct Hbd as ((_ & _ & Hb & _) & _).
  split; [exact E1|]. split; [exact E2|]. split; [exact E3|].
  split; [exact E4|]. split.
  - apply is_dir_snoc. unfold case_dir in *. now apply built_dir.
  - split; [apply built_copy|]. split; [apply built_exe|].
    intros p x. apply built_keeps.
Qed.

(** A source that compiles with a warning: the warning is on the
    standard error stream and the program has run. *)
Lemma build_runs_program_when_buildable_witness :
  let i := call "runCases.sh" ["keller-segel"%string] in
  let w := at_checkout (checkout "int main(){int x;}") in
  @buildable test_host i "keller-segel" "int main(){int x;}"
    "ELF:int main(){int x;}" ["warning: unused variable x"%string] (fs w) /\
  exit_status (@runCases test_host i w).1 = 0%nat /\
  fs (@runCases test_host i w).2
  = <[case_dir i "keller-segel" ++ ["f.mp4"%string] := File "frames"]>
      (built i "keller-segel" "int main(){int x;}"
         "ELF:int main(){int x;}" (fs w)) /\
  stderr (@runCases test_host i w).2 = ["warning: unused variable x"%string].
Proof.
  cbv zeta.
  match goal with |- ?P /\ _ => assert (Hb : P)
    by (repeat split; vm_compute; reflexivity) end.
  split; [exact Hb|].
  pose proof (@build_runs_program_when_buildable test_host
                (call "runCases.sh" ["keller-segel"%string])
                "keller-segel" "int main(){int x;}"
                "ELF:int main(){int x;}" ["warning: unused variable x"%string]
                [] (at_checkout (checkout "int main(){int x;}"))
                eq_refl eq_refl Hb)
    as (E1 & E2 & E3 & _).
  split; [exact E1|]. split; [exact E2|exact E3].
Defined.

(** ** Build and cleanup together *)

Section RoundTrip.
Context `{Host}.

Lemma outside_case_dir (i : invocation) (n c bin : string)
    (f : gmap path node) (p : path) :
  rooted f (script_dir i) -> ~ case_dir i n `prefix_of` p ->
  built i n c bin f !! p = f !! p.
Proof.
  intros Hr Hp. unfold built, copied.
  rewrite !lookup_insert_ne
    by (intros <-; apply Hp, prefix_app_r; reflexivity).
  rewrite mkdir_p_lookup. destruct (f !! p) as [x|] eqn:E; [reflexivity|].
  destruct (decide _) as [Hin|_]; [|reflexivity]. exfalso.
  unfold case_dir in Hin. rewrite ancestors_snoc in Hin.
  apply elem_of_app in Hin as [Hin|Hin].
  - apply Hr in Hin. congruence.
  - apply elem_of_cons in Hin as [->|Hin]; [|now apply elem_of_nil in Hin].
    now apply Hp.
Qed.

Lemma is_dir_same (f g : gmap path node) (p : path) :
  g !! p = f !! p -> is_dir g p = is_dir f p.
Proof. unfold is_dir. intros ->. reflexivity. Qed.

End RoundTrip.

(** X12.  [cleanup.sh <n>] undoes [runCases.sh <n>]: for a case that had no
    output directory, in a checkout whose directories exist, and with a
    program that writes only at or below its working directory, the
    files after a build followed by a cleanup are the files before the
    build, whatever the exit status of the program. *)
Theorem cleanup_undoes_build `{Host}
    (i i' : invocation) (n c bin : string) (warnings : list string)
    (rest rest' : list string) (w : world) :
  argv i = n :: rest -> argv i' = n :: rest' ->
  script_dir i' = script_dir i ->
  valid_case_name n = true ->
  buildable i n c bin warnings (fs w) ->
  confined -> rooted (fs w) (script_dir i) ->
  (forall p : path, case_dir i n `prefix_of` p -> fs w !! p = None) ->
  exit_status (cleanup i' (runCases i w).2).1 = 0%nat /\
  fs (cleanup i' (runCases i w).2).2 = fs w.
Proof.
  intros Ha Ha' Hsame Hn Hbd Hconf Hroot Habs.
  destruct (valid_case_name_plain n Hn) as [_ Hne].
  destruct (runCases_started i n c bin warnings rest w Ha Hn Hbd)
    as (_ & Efs & _).
  assert (Hout : forall p, ~ case_dir i n `prefix_of` p ->
                   fs (runCases i w).2 !! p = fs w !! p).
  { intros p Hp. rewrite Efs, Hconf by exact Hp.
    now apply outside_case_dir. }
  assert (Hd : is_dir (fs (runCases i w).2) (script_dir i') = true).
  { rewrite Hsame. erewrite is_dir_same.
    - destruct Hbd as ((Hsd & _) & _). exact Hsd.
    - apply Hout. unfold case_dir. apply prefix_snoc_not. }
  destruct (cleanup_run i' n rest' (runCases i w).2 Ha' Hne Hd)
    as (R & F & _).
  rewrite R, F. split; [reflexivity|].
  assert (Ec : case_dir i' n = case_dir i n)
    by (unfold case_dir; now rewrite Hsame).
  rewrite Ec. apply map_eq. intros p.
  destruct (decide (case_dir i n `prefix_of` p)) as [Hp|Hp].
  - rewrite rm_rf_below by exact Hp. symmetry. now apply Habs.
  - rewrite rm_rf_elsewhere by exact Hp. now apply Hout.
Qed.

Lemma cleanup_undoes_build_witness :
  let i := call "runCases.sh" ["keller-segel"%string] in
  let i' := call "cleanup.sh" ["keller-segel"%string] in
  let w := at_checkout (checkout "int main(){}") in
  script_dir i' = script_dir i /\
  fs (@runCases test_host i w).2
    !! (case_dir i "keller-segel" ++ ["f.mp4"%string])
  = Some (File "frames") /\
  fs (@cleanup test_host i' (@runCases test_host i w).2).2
  = checkout "int main(){}".
Proof.
  cbv zeta. split; [reflexivity|]. split; [vm_compute; reflexivity|].
  apply (proj2 (@cleanup_undoes_build test_host
                  (call "runCases.sh" ["keller-segel"%string])
                  (call "cleanup.sh" ["keller-segel"%string])
                  "keller-segel" "int main(){}" "ELF:int main(){}" [] [] []
                  (at_checkout (checkout "int main(){}"))
                  eq_refl eq_refl eq_refl eq_refl
                  ltac:(repeat split; vm_compute; reflexivity)
                  test_host_confined
                  (checkout_rooted "int main(){}")
                  (checkout_has_no_output "int main(){}"))).
Defined.

(** ** The working directory *)

Section WorkingDirectory.
Context `{Host}.

Lemma cwd_bind {A B : Type} (m : sh A) (k : A -> sh B) :
  (forall w, cwd (m w).2 = cwd w) ->
  (forall a w, cwd (k a w).2 = cwd w) ->
  forall w, cwd ((m ≫= k) w).2 = cwd w.
Proof.
  intros Hm Hk w. unfold mbind, sh_mbind, sh_bind.
  specialize (Hm w). destruct (m w) as [[a|st] w1]; cbn in *.
  - now rewrite Hk.
  - exact Hm.
Qed.

Lemma cwd_subshell (body : sh unit) (w : world) :
  cwd (subshell body w).2 = cwd w.
Proof.
  unfold subshell. destruct (body w) as [[u|[|k]] w1]; reflexivity.
Qed.

Lemma cwd_cd_and_pwd (dir : path) (w : world) :
  cwd (cd_and_pwd dir w).2 = cwd w.
Proof.
  unfold cd_and_pwd. destruct (simple (Cd dir) w) as [[u|st] w1]; reflexivity.
Qed.

Lemma cwd_find_script_dir (tool : dirname_command) (i : invocation)
    (w : world) :
  cwd (find_script_dir tool i w).2 = cwd w.
Proof.
  unfold find_script_dir, mbind, sh_mbind, sh_bind, printed. cbn.
  destruct (tool (bash_source i)) as [[st [dir|]] msgs]; cbn;
    [|reflexivity].
  now rewrite cwd_cd_and_pwd.
Qed.

Lemma cwd_simple (c : command) (w : world) :
  (forall dir, c <> Cd dir) -> cwd (simple c w).2 = cwd w.
Proof.
  intros Hc. unfold simple.
  assert (Hd : dir_after (perform c (fs w) (cwd w)) = cwd w).
  { destruct c as [dir|dir|src dir|incl src out|prog|dir]; cbn.
    - now destruct (Hc dir).
    - now destruct (blocked _ _).
    - now destruct (cp _ _ _).
    - now destruct (qcc _ _ _ _ _) as [[st f'] msgs].
    - destruct (fs w !! _) as [[bin|]|]; try reflexivity.
      now destruct (execute _ _ _) as [[st f'] msgs].
    - reflexivity. }
  destruct (status _); cbn; exact Hd.
Qed.

Lemma cwd_usage (msg : string) (w : world) :
  cwd ((echo_err msg;; exit 1 : sh unit) w).2 = cwd w.
Proof. reflexivity. Qed.

End WorkingDirectory.

(** X13.  Neither script changes the working directory of its shell: every
    [cd] is made in a subshell or in a command substitution.  So the
    paths the scripts use do not depend on where a previous step has
    been, and the program alone runs in the output directory. *)
Theorem scripts_keep_working_directory `{Host} (i : invocation) (w : world) :
  cwd (runCases i w).2 = cwd w /\ cwd (cleanup i w).2 = cwd w.
Proof.
  split.
  - unfold runCases, runCases_sh.
    destruct (String.eqb (arg1 i) ""); [apply cwd_usage|].
    revert w. apply cwd_bind; [apply cwd_find_script_dir|]. intros sd.
    apply cwd_bind; [apply cwd_cd_and_pwd|]. intros root.
    apply cwd_bind; [intros w; now apply cwd_simple|]. intros _.
    apply cwd_bind; [intros w; now apply cwd_simple|]. intros _.
    apply cwd_bind; [apply cwd_subshell|]. intros _. apply cwd_subshell.
  - unfold cleanup, cleanup_sh.
    destruct (String.eqb (arg1 i) ""); [apply cwd_usage|].
    revert w. apply cwd_bind; [apply cwd_find_script_dir|]. intros sd w.
    now apply cwd_simple.
Qed.
